(** * iarc7_safety: the safety monitor and its per-node safety client

    A shallow embedding of [src/iarc7_safety/SafetyClient.cpp] and of
    [src/SafetyMonitor.cpp].  The ROS run time (the callback queue drained by
    [ros::spinOnce], and [ros::ok]) is the environment: it is given as a list
    of ticks, one per call of [ros::spinOnce]. *)

From Stdlib Require Import ZArith String List Bool Lia Sorted.
From stdpp Require Import base list.

Local Open Scope string_scope.
Local Open Scope list_scope.

(** ** [int32_t] *)

Module Int32.

Definition half : Z := 2 ^ 31.
Definition modulus : Z := 2 ^ 32.
Definition max_signed : Z := half - 1.

(** Reduction of an integer to the two's complement range. *)
Definition wrap (z : Z) : Z := ((z + half) mod modulus - half)%Z.

(** [static_cast<int32_t>(v.size())] *)
Definition of_size (n : nat) : Z := wrap (Z.of_nat n).

Definition sub (a b : Z) : Z := wrap (a - b).

End Int32.

(** ** The ROS environment *)

Module Ros.

(** What the callback queue can hold for the clients of one process: a
    message on the "safety" topic, which every subscriber receives, and the
    two callbacks of the bond owned by the client that was constructed
    [i]-th (counting from 0). *)
Inductive event : Type :=
| SafetyMsg (data : string)
| BondFormed (i : nat)
| BondBroken (i : nat).

(** One scheduling point: the value [ros::ok()] has there, and the callbacks
    the next [ros::spinOnce()] runs. *)
Record tick : Type := Tick { ok : bool; queue : list event }.

End Ros.

(** ** SafetyClient.cpp *)

Module SafetyClient.

Import Ros.

Record t : Type := Build {
  bond_id_ : string;
  fatal_message_ : string;
  fatal_active_ : bool;
  safety_active_ : bool;
  formed_ : bool;
  broken_ : bool
}.

(** Modelled from the spec: the default member initialisers live in
    SafetyClient.hpp, which is not part of the sources at hand.  The sentinel
    is the literal "FATAL" and a fresh client has no flag set. *)
Definition new (bond_id : string) : t :=
  {| bond_id_ := bond_id;
     fatal_message_ := "FATAL";
     fatal_active_ := false;
     safety_active_ := false;
     formed_ := false;
     broken_ := false |}.

(** Modelled from the spec: [getId] is declared in SafetyClient.hpp; it
    names the node the client is bonded to. *)
Definition getId (c : t) : string := bond_id_ c.

Definition set_safety_active (c : t) : t :=
  {| bond_id_ := bond_id_ c;
     fatal_message_ := fatal_message_ c;
     fatal_active_ := fatal_active_ c;
     safety_active_ := true;
     formed_ := formed_ c;
     broken_ := broken_ c |}.

Definition set_fatal_active (c : t) : t :=
  {| bond_id_ := bond_id_ c;
     fatal_message_ := fatal_message_ c;
     fatal_active_ := true;
     safety_active_ := safety_active_ c;
     formed_ := formed_ c;
     broken_ := broken_ c |}.

Definition set_bond (formed broken : bool) (c : t) : t :=
  {| bond_id_ := bond_id_ c;
     fatal_message_ := fatal_message_ c;
     fatal_active_ := fatal_active_ c;
     safety_active_ := safety_active_ c;
     formed_ := formed;
     broken_ := broken |}.

Definition processSafetyMessage (message : string) (c : t) : t :=
  if String.eqb message (bond_id_ c) then
    set_safety_active c
  else if String.eqb message (fatal_message_ c) then
    set_fatal_active (set_safety_active c)
  else c.

Definition isSafetyActive (c : t) : bool := safety_active_ c.

Definition isFatalActive (c : t) : bool := fatal_active_ c.

Definition onBroken (c : t) : t :=
  set_safety_active (set_fatal_active (set_bond false true c)).

Definition onFormed (c : t) : t := set_bond true false c.

(** The operations that reach a client once it is constructed. *)
Inductive op : Type :=
| ProcessSafetyMessage (message : string)
| OnBroken
| OnFormed.

Definition apply (c : t) (o : op) : t :=
  match o with
  | ProcessSafetyMessage message => processSafetyMessage message c
  | OnBroken => onBroken c
  | OnFormed => onFormed c
  end.

Definition run (ops : list op) (c : t) : t := fold_left apply ops c.


(** The operations one queued event triggers in the client constructed
    [i]-th: the subscriber callback for a message, the bond callbacks when
    the bond is its own. *)
Definition triggered (i : nat) (e : event) : list op :=
  match e with
  | SafetyMsg data => [ProcessSafetyMessage data]
  | BondFormed j => if Nat.eqb j i then [OnFormed] else []
  | BondBroken j => if Nat.eqb j i then [OnBroken] else []
  end.

(** The effect of one [ros::spinOnce()] on the client constructed [i]-th. *)
Definition spin (events : list event) (i : nat) (c : t) : t :=
  run (concat (map (triggered i) events)) c.

(** The effect of one [ros::spinOnce()] on the clients constructed so
    far, in construction order. *)
Definition spinOnce (events : list event) (clients : list t) : list t :=
  imap (spin events) clients.

(** How a call of a [bool] function ends: with a value, by running off the
    closing brace without a [return], or not within the ticks given. *)
Inductive outcome : Type :=
| Returned (b : bool)
| NoReturn
| Spinning.

Record waited : Type := Waited {
  w_outcome : outcome;
  w_env : list tick;
  w_others : list t;
  w_this : t
}.

(** [waitUntilSafe], called on the client [this] under construction while
    [others] are the clients constructed before it.  [ros::ok()] is read
    from the tick at hand; [ros::spinOnce()] uses that tick up. *)
Fixpoint waitUntilSafe (env : list tick) (others : list t) (this : t) : waited :=
  match env with
  | [] => Waited Spinning [] others this
  | now :: later =>
      if ok now then
        if broken_ this then Waited (Returned false) env others this
        else if formed_ this then Waited (Returned true) env others this
        else waitUntilSafe later
               (spinOnce (queue now) others)
               (spin (queue now) (length others) this)
      else Waited NoReturn env others this
  end.

(** [bond_.start()] changes nothing in the client; what it sets off arrives
    through the queue. *)
Definition formBond (env : list tick) (others : list t) (this : t) : waited :=
  waitUntilSafe env others this.

End SafetyClient.

(** ** SafetyMonitor.cpp *)

Module SafetyMonitor.

Import Ros.
Import SafetyClient.

Inductive log_line : Type :=
| MadeBond (id : string)
| CouldNotMakeBond (id : string).

Definition line_id (l : log_line) : string :=
  match l with MadeBond id => id | CouldNotMakeBond id => id end.

Inductive exit : Type :=
| ConfigAbort     (* an assertion on the bondIds parameter *)
| FormNoReturn    (* formBond came back without a value *)
| RangeAbort      (* the assertion on lowest_safe_priority *)
| Shutdown        (* the break at !ros::ok() *)
| Pending.        (* still running when the ticks end *)

(** What one pass of the [while] loop leaves behind. *)
Record cycle : Type := Cycle {
  c_bonds : list SafetyClient.t;
  c_lsp : Z;
  c_published : option string
}.

(** The body of the [for] loop, for link [i]. *)
Definition check_bond (i : Z) (bond : SafetyClient.t) (lowest_safe_priority : Z) : Z :=
  let lsp :=
    if isSafetyActive bond then Z.min i lowest_safe_priority
    else lowest_safe_priority in
  if isFatalActive bond then Z.min (Int32.sub i 1) lsp else lsp.

(** [n] more rounds of the [for] loop, from index [i].  The loop guard keeps
    [i] below the size, so [bonds[i]] is always there. *)
Fixpoint check_from (n : nat) (i : Z) (bonds : list SafetyClient.t)
    (lowest_safe_priority : Z) : Z :=
  match n with
  | O => lowest_safe_priority
  | S n' =>
      match bonds !! Z.to_nat i with
      | Some bond =>
          check_from n' (i + 1) bonds (check_bond i bond lowest_safe_priority)
      | None => lowest_safe_priority
      end
  end.

(** [for (int32_t i = 0; i < static_cast<int32_t>(bonds.size()); i++)] *)
Definition check_bonds (bonds : list SafetyClient.t) (lowest_safe_priority : Z) : Z :=
  check_from (Z.to_nat (Int32.of_size (length bonds))) 0 bonds lowest_safe_priority.

(** The condition of the range assertion. *)
Definition range_ok (bonds : list SafetyClient.t) (lowest_safe_priority : Z) : bool :=
  (lowest_safe_priority >? -2)%Z
  && (lowest_safe_priority <? Int32.of_size (length bonds))%Z.

(** The [if / else if] after the assertion: what goes out on "safety".  Past
    the assertion the index of [bonds[lowest_safe_priority]] is in range. *)
Definition publish (bonds : list SafetyClient.t) (lowest_safe_priority : Z)
  : option string :=
  if (lowest_safe_priority >? -1)%Z
     && (lowest_safe_priority <? Int32.sub (Int32.of_size (length bonds)) 1)%Z
  then
    match bonds !! Z.to_nat lowest_safe_priority with
    | Some bond => Some (getId bond)
    | None => None
    end
  else if (lowest_safe_priority <? 0)%Z then Some "FATAL"
  else None.

(** [while(true)]: the cycles run, in order, and how the loop was left. *)
Fixpoint loop (env : list tick) (bonds : list SafetyClient.t)
    (lowest_safe_priority : Z) : list cycle * exit :=
  let lsp := check_bonds bonds lowest_safe_priority in
  if range_ok bonds lsp then
    let this_cycle := Cycle bonds lsp (publish bonds lsp) in
    match env with
    | [] => ([this_cycle], Pending)
    | now :: later =>
        if ok now then
          let (cycles, how) := loop later (spinOnce (queue now) bonds) lsp in
          (this_cycle :: cycles, how)
        else ([this_cycle], Shutdown)
    end
  else ([], RangeAbort).

Inductive started : Type :=
| Ready (log : list log_line) (bonds : list SafetyClient.t)
    (lowest_safe_priority : Z) (env : list tick)
| Stalled (log : list log_line) (how : exit).

(** [for(std::string bond_id : bond_ids)] *)
Fixpoint form_bonds (bond_ids : list string) (env : list tick)
    (log : list log_line) (bonds : list SafetyClient.t)
    (lowest_safe_priority : Z) : started :=
  match bond_ids with
  | [] => Ready log bonds lowest_safe_priority env
  | bond_id :: rest =>
      let w := formBond env bonds (SafetyClient.new bond_id) in
      match w_outcome w with
      | Returned true =>
          form_bonds rest (w_env w)
            (log ++ [MadeBond (getId (w_this w))])
            (w_others w ++ [w_this w])
            lowest_safe_priority
      | Returned false =>
          Ready (log ++ [CouldNotMakeBond (getId (w_this w))])
            (w_others w ++ [w_this w]) (-1)%Z (w_env w)
      | NoReturn => Stalled log FormNoReturn
      | Spinning => Stalled log Pending
      end
  end.

Record result : Type := Result {
  r_log : list log_line;
  r_entry : option Z;       (* lowest_safe_priority on entering the loop *)
  r_cycles : list cycle;
  r_exit : exit
}.

(** [main]; [bondIds] is what the parameter server holds under that name. *)
Definition main (bondIds : option (list string)) (env : list tick) : result :=
  match bondIds with
  | None => Result [] None [] ConfigAbort
  | Some [] => Result [] None [] ConfigAbort
  | Some bond_ids =>
      let lowest_safe_priority :=
        Int32.sub (Int32.of_size (length bond_ids)) 1 in
      match form_bonds bond_ids env [] [] lowest_safe_priority with
      | Ready log bonds lsp env' =>
          let (cycles, how) := loop env' bonds lsp in
          Result log (Some lsp) cycles how
      | Stalled log how => Result log None [] how
      end
  end.

(** The values of [lowest_safe_priority] from loop entry on. *)
Definition lsp_history (r : result) : list Z :=
  match r_entry r with
  | Some lsp => lsp :: map c_lsp (r_cycles r)
  | None => []
  end.

End SafetyMonitor.

Import Ros SafetyClient SafetyMonitor.

(** ** The bond behind a client *)

Module Bond.

(** Modelled from the spec: the bond is bondcpp's [bond::Bond], not part of
    the sources at hand.  A bond is forming, then alive, then broken;
    transitions go one way and a broken bond is never revived. *)
Inductive state : Type :=
| Forming
| Alive
| Broken.

(** Modelled from the spec: what the bond of a client lets reach that client
    in each state.  [onFormed] is fired once, by a forming bond that becomes
    alive; [onBroken] is fired by a bond that breaks, and firing it again
    changes nothing; messages of the "safety" topic are not the bond's and
    arrive at any time. *)
Definition step (s : state) (o : SafetyClient.op) : option state :=
  match o with
  | SafetyClient.ProcessSafetyMessage _ => Some s
  | SafetyClient.OnFormed =>
      match s with Forming => Some Alive | _ => None end
  | SafetyClient.OnBroken => Some Broken
  end.

(** The state a bond in state [s] is in after the operations [ops], when it
    can deliver them in that order. *)
Fixpoint after (s : state) (ops : list SafetyClient.op) : option state :=
  match ops with
  | [] => Some s
  | o :: rest =>
      match step s o with
      | Some s' => after s' rest
      | None => None
      end
  end.


End Bond.

(** ** Scenarios *)

(** A link nothing has happened to yet, bonded to node [id]. *)
Definition quiet (id : string) (c : SafetyClient.t) : Prop :=
  getId c = id /\ fatal_message_ c = "FATAL"
  /\ isSafetyActive c = false /\ isFatalActive c = false.

Definition scenario_ABC : list tick :=
  [ Tick true [BondFormed 0]; Tick true [BondFormed 1]; Tick true [BondFormed 2];
    Tick true [SafetyMsg "B"]; Tick true [] ].

Definition scenario_second_fails : list tick :=
  [ Tick true [BondFormed 0]; Tick true [BondBroken 1]; Tick true [] ].


(** ** Predicates used in the statements *)

Definition is_made (l : log_line) : bool :=
  match l with MadeBond _ => true | CouldNotMakeBond _ => false end.

(** How the construction loop can hand over to the main loop: every bond
    made and the seed untouched, or the first failure last in the log, the
    failed link last in the collection and the seed replaced by -1. *)
Definition handed_over (bond_ids : list string) (lsp : Z)
    (lines : list log_line) (lsp' : Z) : Prop :=
  (lines = map MadeBond bond_ids /\ lsp' = lsp)
  \/ (exists pre id post,
        bond_ids = pre ++ id :: post
        /\ lines = map MadeBond pre ++ [CouldNotMakeBond id]
        /\ lsp' = (-1)%Z).

(** What holds of every cycle of a loop entered with a value in range. *)
Definition cycle_ok (ids : list string) (c : cycle) : Prop :=
  map getId (c_bonds c) = ids
  /\ (-1 <= c_lsp c < Int32.of_size (length (c_bonds c)))%Z
  /\ c_published c = publish (c_bonds c) (c_lsp c).

(** What holds of every cycle of every run. *)
Definition cycle_sound (bond_ids : list string) (c : cycle) : Prop :=
  (exists post, bond_ids = map getId (c_bonds c) ++ post)
  /\ (1 <= Z.of_nat (length (c_bonds c)) <= Int32.max_signed)%Z
  /\ (-1 <= c_lsp c < Z.of_nat (length (c_bonds c)))%Z
  /\ c_published c = publish (c_bonds c) (c_lsp c).

(** A link with neither flag up. *)
Definition flag_free (c : SafetyClient.t) : Prop :=
  isSafetyActive c = false /\ isFatalActive c = false.

(** A link keeps the flags it has through the cycles of a loop. *)
Definition flags_kept (bonds : list SafetyClient.t) (c : cycle) : Prop :=
  forall i bond,
    bonds !! i = Some bond ->
    exists bond',
      c_bonds c !! i = Some bond'
      /\ (isSafetyActive bond = true -> isSafetyActive bond' = true)
      /\ (isFatalActive bond = true -> isFatalActive bond' = true).

(** * Properties *)

(** ** [int32_t] arithmetic *)

Lemma wrap_small (z : Z) :
  (- Int32.half <= z < Int32.half)%Z -> Int32.wrap z = z.
Proof.
  intros Hz. unfold Int32.wrap, Int32.modulus, Int32.half in *.
  rewrite Z.mod_small; lia.
Qed.

Lemma wrap_lt_half (z : Z) : (Int32.wrap z < Int32.half)%Z.
Proof.
  unfold Int32.wrap, Int32.modulus, Int32.half.
  pose proof (Z.mod_pos_bound (z + 2 ^ 31) (2 ^ 32)). lia.
Qed.

Lemma of_size_small (n : nat) :
  (Z.of_nat n <= Int32.max_signed)%Z -> Int32.of_size n = Z.of_nat n.
Proof.
  intros Hn. apply wrap_small. unfold Int32.max_signed, Int32.half in *. lia.
Qed.

Lemma sub_one_small (i : Z) :
  (0 <= i < Int32.half)%Z -> Int32.sub i 1 = (i - 1)%Z.
Proof.
  intros Hi. apply wrap_small. unfold Int32.half in *. lia.
Qed.

(** ** The client's flags *)

Section ClientFlags.

Variable c : SafetyClient.t.

Lemma apply_keeps_safety (o : op) :
  isSafetyActive c = true -> isSafetyActive (apply c o) = true.
Proof.
  destruct o as [message | |]; simpl; trivial.
  unfold processSafetyMessage.
  destruct (message =? bond_id_ c); [reflexivity|].
  destruct (message =? fatal_message_ c); trivial.
Qed.

Lemma apply_keeps_fatal (o : op) :
  isFatalActive c = true -> isFatalActive (apply c o) = true.
Proof.
  destruct o as [message | |]; simpl; trivial.
  unfold processSafetyMessage.
  destruct (message =? bond_id_ c); [trivial|].
  destruct (message =? fatal_message_ c); trivial.
Qed.

Lemma apply_keeps_implication (o : op) :
  (isFatalActive c = true -> isSafetyActive c = true) ->
  isFatalActive (apply c o) = true -> isSafetyActive (apply c o) = true.
Proof.
  destruct o as [message | |]; simpl; trivial.
  unfold processSafetyMessage.
  destruct (message =? bond_id_ c); [reflexivity|].
  destruct (message =? fatal_message_ c); trivial.
Qed.

Lemma apply_keeps_names (o : op) :
  bond_id_ (apply c o) = bond_id_ c
  /\ fatal_message_ (apply c o) = fatal_message_ c.
Proof.
  destruct o as [message | |]; simpl; auto.
  unfold processSafetyMessage.
  destruct (message =? bond_id_ c); [auto|].
  destruct (message =? fatal_message_ c); auto.
Qed.



End ClientFlags.

Lemma run_app (ops more : list op) (c : SafetyClient.t) :
  run (ops ++ more) c = run more (run ops c).
Proof. unfold run. apply fold_left_app. Qed.

Lemma run_keeps_safety (ops : list op) :
  forall c, isSafetyActive c = true -> isSafetyActive (run ops c) = true.
Proof.
  induction ops as [|o ops IH]; intros c Hc; simpl; [exact Hc|].
  apply IH, apply_keeps_safety, Hc.
Qed.

Lemma run_keeps_fatal (ops : list op) :
  forall c, isFatalActive c = true -> isFatalActive (run ops c) = true.
Proof.
  induction ops as [|o ops IH]; intros c Hc; simpl; [exact Hc|].
  apply IH, apply_keeps_fatal, Hc.
Qed.

Lemma run_keeps_implication (ops : list op) :
  forall c,
    (isFatalActive c = true -> isSafetyActive c = true) ->
    isFatalActive (run ops c) = true -> isSafetyActive (run ops c) = true.
Proof.
  induction ops as [|o ops IH]; intros c Hc; simpl; [exact Hc|].
  apply IH, apply_keeps_implication, Hc.
Qed.

Lemma run_keeps_id (ops : list op) :
  forall c, getId (run ops c) = getId c.
Proof.
  induction ops as [|o ops IH]; intros c; simpl; [reflexivity|].
  rewrite IH. apply apply_keeps_names.
Qed.


(** ** Claims about the client *)

(** C9. Fatal implies safety.  After construction and any sequence of
    operations ([processSafetyMessage] with any message, [onBroken],
    [onFormed]), a client whose fatal flag is up has its safety flag up as
    well, and whatever operations follow, both flags stay up. *)
Theorem fatal_implies_safety (bond_id : string) (ops more : list op) :
  isFatalActive (run ops (SafetyClient.new bond_id)) = true ->
  isSafetyActive (run ops (SafetyClient.new bond_id)) = true
  /\ isFatalActive (run (ops ++ more) (SafetyClient.new bond_id)) = true
  /\ isSafetyActive (run (ops ++ more) (SafetyClient.new bond_id)) = true.
Proof.
  intros Hfatal.
  assert (Hsafety : isSafetyActive (run ops (SafetyClient.new bond_id)) = true).
  { revert Hfatal. apply run_keeps_implication. discriminate. }
  rewrite run_app. split; [exact Hsafety|]. split.
  - apply run_keeps_fatal, Hfatal.
  - apply run_keeps_safety, Hsafety.
Qed.

Lemma fatal_implies_safety_witness :
  isFatalActive
    (run [OnFormed; ProcessSafetyMessage "FATAL"] (SafetyClient.new "A")) = true
  /\ isSafetyActive
       (run ([OnFormed; ProcessSafetyMessage "FATAL"] ++ [OnFormed; ProcessSafetyMessage "B"])
          (SafetyClient.new "A")) = true.
Proof.
  split; [reflexivity|].
  apply (fatal_implies_safety "A" [OnFormed; ProcessSafetyMessage "FATAL"]
           [OnFormed; ProcessSafetyMessage "B"]).
  reflexivity.
Defined.

(** C8. Broken absorption of the flags.  Once [onBroken] has run, whatever
    came before it and whatever operations come after it (messages of any
    content, [onFormed], [onBroken] again), [isSafetyActive] and
    [isFatalActive] both answer true. *)
Theorem broken_forces_both_flags (c : SafetyClient.t) (before after : list op) :
  isSafetyActive (run (before ++ OnBroken :: after) c) = true
  /\ isFatalActive (run (before ++ OnBroken :: after) c) = true.
Proof.
  rewrite run_app. simpl.
  split; [apply run_keeps_safety | apply run_keeps_fatal]; reflexivity.
Qed.





(** The bond's order is what the client relies on: [onFormed] itself does
    not look at [broken_], so the guarantee above is the bond's, which never
    fires [onFormed] once broken. *)
Lemma onFormed_does_not_test_broken (c : SafetyClient.t) :
  Bond.step Bond.Broken OnFormed = None
  /\ broken_ (onFormed c) = false /\ formed_ (onFormed c) = true.
Proof. repeat split. Qed.

(** C10. [processSafetyMessage] compares the message with the client's own
    id first.  A message equal to the id raises [safety_active_] and changes
    nothing else, so [fatal_active_] is as it was, also when the id is the
    sentinel itself; a message that is neither the id nor the sentinel leaves
    the client as it was. *)
Theorem own_id_tested_before_sentinel (c : SafetyClient.t) (message : string) :
  (message = bond_id_ c ->
     processSafetyMessage message c = set_safety_active c
     /\ isSafetyActive (processSafetyMessage message c) = true
     /\ isFatalActive (processSafetyMessage message c) = isFatalActive c)
  /\ (bond_id_ c = fatal_message_ c -> isFatalActive c = false ->
        isSafetyActive (processSafetyMessage (fatal_message_ c) c) = true
        /\ isFatalActive (processSafetyMessage (fatal_message_ c) c) = false)
  /\ (message <> bond_id_ c -> message <> fatal_message_ c ->
        processSafetyMessage message c = c).
Proof.
  unfold processSafetyMessage. split; [|split].
  - intros ->. rewrite String.eqb_refl. auto.
  - intros <- Hfatal. rewrite String.eqb_refl. auto.
  - intros Hid Hfatal.
    apply String.eqb_neq in Hid, Hfatal. now rewrite Hid, Hfatal.
Qed.

Lemma own_id_tested_before_sentinel_witness :
  let c := SafetyClient.Build "FATAL" "FATAL" false false true false in
  isSafetyActive (processSafetyMessage "FATAL" c) = true
  /\ isFatalActive (processSafetyMessage "FATAL" c) = false
  /\ processSafetyMessage "B" c = c.
Proof.
  intros c.
  destruct (own_id_tested_before_sentinel c "FATAL") as [_ [Hsentinel _]].
  destruct (own_id_tested_before_sentinel c "B") as [_ [_ Hother]].
  destruct (Hsentinel eq_refl eq_refl) as [Hs Hf].
  split; [exact Hs|]. split; [exact Hf|].
  apply Hother; discriminate.
Defined.

(** C6, where the code departs from the claim.  When [ros::ok()] is false at
    the test of the wait loop, [waitUntilSafe] leaves the loop and reaches its
    closing brace: [formBond] comes back with neither true nor false, whatever
    the state of the client. *)
Theorem formBond_shutdown_no_return
    (events : list event) (later : list tick)
    (others : list SafetyClient.t) (this : SafetyClient.t) :
  w_outcome (formBond (Tick false events :: later) others this) = NoReturn.
Proof. reflexivity. Qed.

(** ** The evaluation pass *)

Lemma check_bond_le (i : Z) (bond : SafetyClient.t) (lsp : Z) :
  (check_bond i bond lsp <= lsp)%Z.
Proof.
  unfold check_bond.
  destruct (isSafetyActive bond), (isFatalActive bond); lia.
Qed.

Lemma check_bond_ge (i : Z) (bond : SafetyClient.t) (lsp : Z) :
  (0 <= i < Int32.half)%Z -> (-1 <= lsp)%Z -> (-1 <= check_bond i bond lsp)%Z.
Proof.
  intros Hi Hlsp. unfold check_bond. rewrite (sub_one_small i Hi).
  destruct (isSafetyActive bond), (isFatalActive bond); lia.
Qed.

Lemma check_from_le (bonds : list SafetyClient.t) (n : nat) :
  forall i lsp, (check_from n i bonds lsp <= lsp)%Z.
Proof.
  induction n as [|n IH]; intros i lsp; simpl; [lia|].
  destruct (bonds !! Z.to_nat i) as [bond|]; [|lia].
  specialize (IH (i + 1)%Z (check_bond i bond lsp)).
  pose proof (check_bond_le i bond lsp). lia.
Qed.

Lemma check_from_ge (bonds : list SafetyClient.t) (n : nat) :
  forall i lsp,
    (0 <= i)%Z -> (i + Z.of_nat n <= Int32.half)%Z -> (-1 <= lsp)%Z ->
    (-1 <= check_from n i bonds lsp)%Z.
Proof.
  induction n as [|n IH]; intros i lsp Hi Hn Hlsp; simpl; [exact Hlsp|].
  destruct (bonds !! Z.to_nat i) as [bond|]; [|exact Hlsp].
  apply IH; [lia | lia |].
  apply check_bond_ge; [lia | exact Hlsp].
Qed.

Lemma check_bonds_le (bonds : list SafetyClient.t) (lsp : Z) :
  (check_bonds bonds lsp <= lsp)%Z.
Proof. apply check_from_le. Qed.

Lemma check_bonds_ge (bonds : list SafetyClient.t) (lsp : Z) :
  (-1 <= lsp)%Z -> (-1 <= check_bonds bonds lsp)%Z.
Proof.
  intros Hlsp. apply check_from_ge; [lia | | exact Hlsp].
  pose proof (wrap_lt_half (Z.of_nat (length bonds))).
  assert (0 < Int32.half)%Z by reflexivity.
  unfold Int32.of_size. lia.
Qed.

Lemma range_ok_spec (bonds : list SafetyClient.t) (lsp : Z) :
  range_ok bonds lsp = true
  <-> (-2 < lsp < Int32.of_size (length bonds))%Z.
Proof.
  unfold range_ok. rewrite andb_true_iff, Z.gtb_lt, Z.ltb_lt. tauto.
Qed.

Lemma check_bonds_in_range (bonds : list SafetyClient.t) (lsp : Z) :
  (-1 <= lsp < Int32.of_size (length bonds))%Z ->
  (-1 <= check_bonds bonds lsp < Int32.of_size (length bonds))%Z.
Proof.
  intros [Hlo Hhi]. pose proof (check_bonds_le bonds lsp).
  pose proof (check_bonds_ge bonds lsp Hlo). lia.
Qed.

(** ** [ros::spinOnce] leaves the shape of the fleet alone *)

Lemma spin_keeps_id (events : list event) (i : nat) (c : SafetyClient.t) :
  getId (spin events i c) = getId c.
Proof. apply run_keeps_id. Qed.

Lemma imap_keeps_ids (l : list SafetyClient.t) :
  forall f : nat -> SafetyClient.t -> SafetyClient.t,
    (forall i c, getId (f i c) = getId c) ->
    map getId (imap f l) = map getId l.
Proof.
  induction l as [|c l IH]; intros f Hf; simpl; [reflexivity|].
  rewrite Hf. f_equal. apply IH. intros i c'. apply Hf.
Qed.

Lemma spinOnce_ids (events : list event) (bonds : list SafetyClient.t) :
  map getId (spinOnce events bonds) = map getId bonds.
Proof. apply imap_keeps_ids. intros i c. apply spin_keeps_id. Qed.

Lemma spinOnce_length (events : list event) (bonds : list SafetyClient.t) :
  length (spinOnce events bonds) = length bonds.
Proof. apply length_imap. Qed.

Lemma same_ids_same_length (l k : list SafetyClient.t) :
  map getId l = map getId k -> length l = length k.
Proof.
  intros H. apply (f_equal (@length string)) in H.
  now rewrite !length_map in H.
Qed.

Lemma waitUntilSafe_shape (env : list tick) :
  forall others this,
    getId (w_this (waitUntilSafe env others this)) = getId this
    /\ map getId (w_others (waitUntilSafe env others this)) = map getId others.
Proof.
  induction env as [|now later IH]; intros others this; simpl; [auto|].
  destruct (ok now); [|auto].
  destruct (broken_ this); [auto|].
  destruct (formed_ this); [auto|].
  destruct (IH (spinOnce (queue now) others)
              (spin (queue now) (length others) this)) as [Hthis Hothers].
  rewrite Hthis, Hothers, spin_keeps_id, spinOnce_ids. auto.
Qed.

(** ** The main loop *)

Lemma loop_cycles_le (env : list tick) :
  forall bonds lsp,
    Forall (fun c => (c_lsp c <= lsp)%Z) (fst (loop env bonds lsp)).
Proof.
  induction env as [|now later IH]; intros bonds lsp; cbn [loop];
    pose proof (check_bonds_le bonds lsp) as Hle;
    destruct (range_ok bonds (check_bonds bonds lsp)); simpl;
    try (constructor; fail).
  - constructor; [exact Hle | constructor].
  - destruct (ok now); [|constructor; [exact Hle | constructor]].
    specialize (IH (spinOnce (queue now) bonds) (check_bonds bonds lsp)).
    destruct (loop later (spinOnce (queue now) bonds) (check_bonds bonds lsp))
      as [cycles how]; simpl in *.
    constructor; [exact Hle|].
    eapply Forall_impl; [exact IH|]. simpl. intros c Hc. lia.
Qed.

Lemma loop_sorted (env : list tick) :
  forall bonds lsp,
    StronglySorted Z.ge (lsp :: map c_lsp (fst (loop env bonds lsp))).
Proof.
  induction env as [|now later IH]; intros bonds lsp.
  - constructor.
    + cbn [loop]. destruct (range_ok bonds (check_bonds bonds lsp)); simpl;
        repeat constructor.
    + apply Forall_map. eapply Forall_impl; [apply loop_cycles_le|].
      simpl. intros c Hc. lia.
  - constructor.
    + specialize (IH (spinOnce (queue now) bonds) (check_bonds bonds lsp)).
      cbn [loop]. destruct (range_ok bonds (check_bonds bonds lsp)); simpl;
        [|constructor].
      destruct (ok now); [|repeat constructor].
      destruct (loop later (spinOnce (queue now) bonds) (check_bonds bonds lsp))
        as [cycles how]; simpl in *. exact IH.
    + apply Forall_map. eapply Forall_impl; [apply loop_cycles_le|].
      simpl. intros c Hc. lia.
Qed.

Lemma loop_in_range (env : list tick) :
  forall bonds lsp,
    (-1 <= lsp < Int32.of_size (length bonds))%Z ->
    snd (loop env bonds lsp) <> RangeAbort
    /\ (exists first rest,
          fst (loop env bonds lsp) = first :: rest
          /\ c_bonds first = bonds /\ c_lsp first = check_bonds bonds lsp)
    /\ Forall (cycle_ok (map getId bonds)) (fst (loop env bonds lsp)).
Proof.
  induction env as [|now later IH]; intros bonds lsp Hlsp;
    pose proof (check_bonds_in_range bonds lsp Hlsp) as Hnext;
    assert (Hok : range_ok bonds (check_bonds bonds lsp) = true)
      by (apply range_ok_spec; lia);
    assert (Hthis : cycle_ok (map getId bonds)
              (Cycle bonds (check_bonds bonds lsp)
                 (publish bonds (check_bonds bonds lsp))))
      by (repeat split; simpl; lia);
    cbn [loop]; rewrite Hok.
  - simpl. split; [discriminate|]. split; [eauto|]. repeat constructor; apply Hthis.
  - destruct (ok now); simpl.
    + destruct (IH (spinOnce (queue now) bonds) (check_bonds bonds lsp))
        as [Hexit [_ Hall]]; [rewrite spinOnce_length; exact Hnext|].
      destruct (loop later (spinOnce (queue now) bonds) (check_bonds bonds lsp))
        as [cycles how]; simpl in *.
      split; [exact Hexit|]. split; [eauto|].
      constructor; [exact Hthis|]. now rewrite spinOnce_ids in Hall.
    + split; [discriminate|]. split; [eauto|].
      repeat constructor; apply Hthis.
Qed.

(** ** Start-up *)

Lemma made_lines (ids : list string) : forallb is_made (map MadeBond ids) = true.
Proof. induction ids as [|id ids IH]; simpl; auto. Qed.

Lemma failed_line (lines : list log_line) (id : string) :
  forallb is_made (lines ++ [CouldNotMakeBond id]) = false.
Proof.
  rewrite forallb_app. simpl. apply andb_false_r.
Qed.

Lemma MadeBond_map_inj (l k : list string) :
  map MadeBond l = map MadeBond k -> l = k.
Proof.
  revert k. induction l as [|x l IH]; intros [|y k] H; simpl in H;
    try discriminate; [reflexivity|].
  injection H as -> H. f_equal. apply IH, H.
Qed.

Lemma form_bonds_ready (bond_ids : list string) :
  forall env log bonds lsp log' bonds' lsp' env',
    form_bonds bond_ids env log bonds lsp = Ready log' bonds' lsp' env' ->
    exists lines,
      log' = log ++ lines
      /\ map getId bonds' = map getId bonds ++ map line_id lines
      /\ handed_over bond_ids lsp lines lsp'.
Proof.
  induction bond_ids as [|bond_id rest IH];
    intros env log bonds lsp log' bonds' lsp' env' H; simpl in H.
  - injection H as <- <- <- <-. exists []. rewrite !app_nil_r.
    split; [reflexivity|]. split; [reflexivity|]. left. auto.
  - destruct (waitUntilSafe_shape env bonds (SafetyClient.new bond_id))
      as [Hthis Hothers].
    unfold formBond in H.
    destruct (w_outcome (waitUntilSafe env bonds (SafetyClient.new bond_id)))
      as [[|]| |]; try discriminate.
    + apply IH in H as (lines & -> & Hids & Hover).
      exists (MadeBond bond_id :: lines).
      rewrite Hthis in *. rewrite map_app, Hothers in Hids. simpl in *.
      rewrite Hthis in Hids.
      rewrite <- !app_assoc in *. simpl in *.
      split; [reflexivity|]. split; [exact Hids|].
      destruct Hover as [[-> ->] | (pre & id & post & -> & -> & ->)].
      * left. auto.
      * right. exists (bond_id :: pre), id, post. auto.
    + injection H as <- <- <- <-.
      exists [CouldNotMakeBond bond_id].
      rewrite Hthis, map_app, Hothers. simpl. rewrite Hthis.
      split; [reflexivity|]. split; [reflexivity|].
      right. exists [], bond_id, rest. auto.
Qed.

Lemma form_bonds_stalled (bond_ids : list string) :
  forall env log bonds lsp log' how,
    form_bonds bond_ids env log bonds lsp = Stalled log' how ->
    (exists made, log' = log ++ map MadeBond made)
    /\ (how = FormNoReturn \/ how = Pending).
Proof.
  induction bond_ids as [|bond_id rest IH];
    intros env log bonds lsp log' how H; simpl in H; [discriminate|].
  destruct (w_outcome (formBond env bonds (SafetyClient.new bond_id)))
    as [[|]| |]; try discriminate.
  - apply IH in H as [[made ->] Hhow]. split; [|exact Hhow].
    exists (getId (w_this (formBond env bonds (SafetyClient.new bond_id))) :: made).
    rewrite <- app_assoc. reflexivity.
  - injection H as <- <-. split; [|auto]. exists []. now rewrite app_nil_r.
  - injection H as <- <-. split; [|auto]. exists []. now rewrite app_nil_r.
Qed.

(** The state in which [main] enters its loop. *)
Lemma loop_entry (bond_ids : list string) (env : list tick)
    (log : list log_line) (bonds : list SafetyClient.t) (lsp : Z)
    (env' : list tick) :
  bond_ids <> [] ->
  (Z.of_nat (length bond_ids) <= Int32.max_signed)%Z ->
  form_bonds bond_ids env [] []
    (Int32.sub (Int32.of_size (length bond_ids)) 1) = Ready log bonds lsp env' ->
  map getId bonds = map line_id log
  /\ (exists post, bond_ids = map getId bonds ++ post)
  /\ (1 <= Z.of_nat (length bonds) <= Int32.max_signed)%Z
  /\ (-1 <= lsp < Z.of_nat (length bonds))%Z
  /\ handed_over bond_ids (Z.of_nat (length bond_ids) - 1)%Z log lsp.
Proof.
  intros Hne Hfits H.
  rewrite (of_size_small _ Hfits), sub_one_small in H
    by (unfold Int32.max_signed in Hfits; lia).
  apply form_bonds_ready in H as (lines & Hlog & Hids & Hover).
  simpl in Hlog, Hids. subst lines.
  assert (Hlen : length bonds = length log).
  { apply (f_equal (@length string)) in Hids. now rewrite !length_map in Hids. }
  split; [exact Hids|]. rewrite Hlen, Hids.
  destruct Hover as [[-> ->] | (pre & id & post & -> & -> & ->)].
  - rewrite length_map.
    assert (map line_id (map MadeBond bond_ids) = bond_ids) as ->.
    { clear. induction bond_ids as [|x l IH]; simpl; [|rewrite IH]; reflexivity. }
    split; [exists []; now rewrite app_nil_r|].
    destruct bond_ids; [contradiction|]. simpl length in *.
    split; [lia|]. split; [lia|]. left. auto.
  - rewrite map_app. simpl.
    assert (map line_id (map MadeBond pre) = pre) as ->.
    { clear. induction pre as [|x l IH]; simpl; [|rewrite IH]; reflexivity. }
    split; [exists post; now rewrite <- app_assoc|].
    rewrite !length_app, length_map in *. simpl length in *.
    split; [lia|]. split; [lia|]. right. exists pre, id, post. auto.
Qed.

(** ** Runs of [main] *)

Lemma main_run (bond_ids : list string) (env : list tick) :
  bond_ids <> [] ->
  main (Some bond_ids) env =
  match form_bonds bond_ids env [] []
          (Int32.sub (Int32.of_size (length bond_ids)) 1) with
  | Ready log bonds lsp env' =>
      Result log (Some lsp) (fst (loop env' bonds lsp)) (snd (loop env' bonds lsp))
  | Stalled log how => Result log None [] how
  end.
Proof.
  intros Hne. destruct bond_ids as [|id rest]; [contradiction|].
  unfold main.
  destruct (form_bonds _ _ _ _ _) as [log bonds lsp env'|log how]; [|reflexivity].
  now destruct (loop env' bonds lsp).
Qed.

Lemma main_cycles_sound (bond_ids : list string) (env : list tick) :
  (Z.of_nat (length bond_ids) <= Int32.max_signed)%Z ->
  r_exit (main (Some bond_ids) env) <> RangeAbort
  /\ Forall (cycle_sound bond_ids) (r_cycles (main (Some bond_ids) env)).
Proof.
  intros Hfits.
  destruct (decide (bond_ids = [])) as [->|Hne];
    [simpl; split; [discriminate | constructor]|].
  rewrite (main_run bond_ids env Hne).
  destruct (form_bonds _ _ _ _ _) as [log bonds lsp env'|log how] eqn:Hform.
  - destruct (loop_entry bond_ids env log bonds lsp env' Hne Hfits Hform)
      as (_ & Hpost & Hlen & Hlsp & _).
    destruct (loop_in_range env' bonds lsp) as (Hexit & _ & Hall);
      [rewrite of_size_small; lia|].
    simpl. split; [exact Hexit|].
    eapply Forall_impl; [exact Hall|].
    intros c (Hids & Hrange & Hpub).
    pose proof (same_ids_same_length _ _ Hids) as Hsame.
    unfold cycle_sound. rewrite Hids, Hsame.
    rewrite Hsame, of_size_small in Hrange by lia. auto.
  - apply form_bonds_stalled in Hform as [_ [-> | ->]]; simpl;
      (split; [discriminate | constructor]).
Qed.

(** ** Claims about the monitor *)

(** C4. Whatever the start-up did (every bond formed and the seed N-1, or a
    formation failure and the seed -1) and whatever the queue delivers
    afterwards, the range assertion never fails, and after the evaluation
    pass of every cycle -1 <= lowest_safe_priority < N, with N >= 1 the number
    of links constructed. *)
Theorem lowest_safe_priority_stays_in_range
    (bond_ids : list string) (env : list tick) :
  (Z.of_nat (length bond_ids) <= Int32.max_signed)%Z ->
  r_exit (main (Some bond_ids) env) <> RangeAbort
  /\ Forall (fun c =>
       (1 <= Z.of_nat (length (c_bonds c)))%Z
       /\ (-1 <= c_lsp c < Z.of_nat (length (c_bonds c)))%Z
       /\ range_ok (c_bonds c) (c_lsp c) = true)
     (r_cycles (main (Some bond_ids) env)).
Proof.
  intros Hfits.
  destruct (main_cycles_sound bond_ids env Hfits) as [Hexit Hall].
  split; [exact Hexit|].
  eapply Forall_impl; [exact Hall|].
  intros c (_ & Hlen & Hlsp & _).
  split; [lia|]. split; [exact Hlsp|].
  apply range_ok_spec. rewrite of_size_small; lia.
Qed.

Lemma lowest_safe_priority_stays_in_range_witness :
  r_exit (main (Some ["A"; "B"; "C"])
            [ Tick true [BondFormed 0]; Tick true [BondFormed 1];
              Tick true [BondFormed 2];
              Tick true [BondBroken 0; BondBroken 1; BondBroken 2;
                         SafetyMsg "FATAL"];
              Tick true [] ]) <> RangeAbort.
Proof.
  apply (lowest_safe_priority_stays_in_range ["A"; "B"; "C"]).
  vm_compute. discriminate.
Defined.

(** C3. Monotonicity.  No round of the evaluation loop raises
    lowest_safe_priority, and in every run of [main], whatever is delivered
    between the cycles, each value the variable takes from loop entry on is
    at most every value it had before. *)
Theorem lowest_safe_priority_never_rises
    (bondIds : option (list string)) (env : list tick) :
  (forall i bond lsp, (check_bond i bond lsp <= lsp)%Z)
  /\ StronglySorted Z.ge (lsp_history (main bondIds env)).
Proof.
  split; [apply check_bond_le|].
  destruct bondIds as [bond_ids|]; [|constructor].
  destruct (decide (bond_ids = [])) as [->|Hne]; [constructor|].
  rewrite (main_run bond_ids env Hne).
  destruct (form_bonds _ _ _ _ _) as [log bonds lsp env'|log how];
    [|constructor].
  apply loop_sorted.
Qed.

(** C2. In every cycle that gets past the assertion, with N the number of
    links constructed: when -1 < lowest_safe_priority < N-1 the id of the link
    at that index is published, when it is -1 "FATAL" is published, when it is
    N-1 nothing is; no other case exists.  So whatever is published is
    "FATAL" or one of the configured ids. *)
Theorem every_cycle_publishes_one_of_three
    (bond_ids : list string) (env : list tick) (c : cycle) :
  (Z.of_nat (length bond_ids) <= Int32.max_signed)%Z ->
  In c (r_cycles (main (Some bond_ids) env)) ->
  (1 <= Z.of_nat (length (c_bonds c)))%Z
  /\ (((-1 < c_lsp c < Z.of_nat (length (c_bonds c)) - 1)%Z
       /\ exists bond,
            c_bonds c !! Z.to_nat (c_lsp c) = Some bond
            /\ c_published c = Some (getId bond))
      \/ (c_lsp c = (-1)%Z /\ c_published c = Some "FATAL")
      \/ (c_lsp c = (Z.of_nat (length (c_bonds c)) - 1)%Z
          /\ c_published c = None))
  /\ (forall message,
        c_published c = Some message ->
        message = "FATAL" \/ In message bond_ids).
Proof.
  intros Hfits Hin.
  destruct (main_cycles_sound bond_ids env Hfits) as [_ Hall].
  rewrite Forall_forall in Hall.
  destruct (Hall c) as ([post Hpost] & Hlen & Hlsp & Hpub);
    [apply list_elem_of_In, Hin|].
  split; [lia|].
  unfold publish in Hpub.
  rewrite of_size_small, sub_one_small, Z.gtb_ltb in Hpub
    by (unfold Int32.max_signed in *; lia).
  destruct (Z.ltb_spec (-1) (c_lsp c)) as [Hpos|Hneg];
    destruct (Z.ltb_spec (c_lsp c) (Z.of_nat (length (c_bonds c)) - 1))
      as [Hlow|Hlast]; simpl in Hpub.
  - destruct (lookup_lt_is_Some_2 (c_bonds c) (Z.to_nat (c_lsp c)))
      as [bond Hbond]; [lia|].
    rewrite Hbond in Hpub. split.
    + left. split; [lia|]. exists bond. auto.
    + intros message Hmsg. right. rewrite Hpub in Hmsg. injection Hmsg as <-.
      rewrite Hpost. apply in_or_app. left. apply in_map.
      apply list_elem_of_In. eapply list_elem_of_lookup_2, Hbond.
  - destruct (Z.ltb_spec (c_lsp c) 0) as [Hlt|Hge]; [lia|]. split.
    + right. right. split; [lia | exact Hpub].
    + intros message Hmsg. rewrite Hpub in Hmsg. discriminate.
  - destruct (Z.ltb_spec (c_lsp c) 0) as [Hlt|Hge]; [|lia]. split.
    + right. left. split; [lia | exact Hpub].
    + intros message Hmsg. left. rewrite Hpub in Hmsg. now injection Hmsg as <-.
  - lia.
Qed.

Lemma every_cycle_publishes_one_of_three_witness :
  exists some,
    hd_error (r_cycles (main (Some ["A"; "B"]) scenario_second_fails)) = Some some
    /\ forall message,
         c_published some = Some message ->
         message = "FATAL" \/ In message ["A"; "B"].
Proof.
  eexists. split; [vm_compute; reflexivity|].
  apply (every_cycle_publishes_one_of_three ["A"; "B"] scenario_second_fails).
  - vm_compute. discriminate.
  - vm_compute. left. reflexivity.
Defined.

(** C7. When the log of the start-up ends with the first failed formation,
    that of the node after [pre] in the configured list, [main] has
    constructed no link beyond that node and has kept the failed link (the
    links are those of [pre] and of that node, in order), enters its loop with
    lowest_safe_priority at -1, and its first cycle publishes "FATAL". *)
Theorem failed_formation_publishes_fatal
    (bond_ids pre : list string) (id : string) (env : list tick) :
  (Z.of_nat (length bond_ids) <= Int32.max_signed)%Z ->
  r_log (main (Some bond_ids) env) = map MadeBond pre ++ [CouldNotMakeBond id] ->
  exists first rest post,
    bond_ids = pre ++ id :: post
    /\ r_entry (main (Some bond_ids) env) = Some (-1)%Z
    /\ r_cycles (main (Some bond_ids) env) = first :: rest
    /\ map getId (c_bonds first) = pre ++ [id]
    /\ length (c_bonds first) = S (length pre)
    /\ c_lsp first = (-1)%Z
    /\ c_published first = Some "FATAL".
Proof.
  intros Hfits Hlog.
  destruct (decide (bond_ids = [])) as [->|Hne];
    [simpl in Hlog; now destruct (map MadeBond pre)|].
  rewrite (main_run bond_ids env Hne) in *.
  destruct (form_bonds _ _ _ _ _) as [log bonds lsp env'|log how] eqn:Hform;
    simpl in Hlog.
  - destruct (loop_entry bond_ids env log bonds lsp env' Hne Hfits Hform)
      as (Hids & _ & Hlen & Hlsp & Hover).
    destruct Hover as [[Hmade _] | (pre' & id' & post & Hsplit & Hfailed & ->)].
    { pose proof (failed_line (map MadeBond pre) id) as Hf.
      rewrite <- Hlog, Hmade, made_lines in Hf. discriminate. }
    rewrite Hfailed in Hlog. apply app_inj_tail in Hlog as [Hpre Hid].
    apply MadeBond_map_inj in Hpre. injection Hid as Hid. subst pre' id'.
    destruct (loop_in_range env' bonds (-1)%Z)
      as (_ & (first & rest & Hcycles & Hbonds & Hfirst) & Hall);
      [rewrite of_size_small; lia|].
    rewrite Hcycles in Hall. apply Forall_cons in Hall as [(_ & _ & Hpub) _].
    assert (Hminus : c_lsp first = (-1)%Z).
    { pose proof (check_bonds_le bonds (-1)%Z).
      pose proof (check_bonds_ge bonds (-1)%Z). lia. }
    assert (Hnames : map getId bonds = pre ++ [id]).
    { rewrite Hids, Hfailed, map_app. simpl. f_equal.
      clear. induction pre as [|x l IH]; simpl; [|rewrite IH]; reflexivity. }
    exists first, rest, post. simpl.
    rewrite Hbonds, Hminus in *.
    split; [exact Hsplit|]. split; [reflexivity|]. split; [exact Hcycles|].
    split; [exact Hnames|]. split.
    + apply (f_equal (@length string)) in Hnames.
      rewrite length_map, length_app in Hnames. simpl in Hnames. lia.
    + split; [reflexivity|]. rewrite Hpub. reflexivity.
  - apply form_bonds_stalled in Hform as [[made Hmade] _]. simpl in Hmade.
    pose proof (failed_line (map MadeBond pre) id) as Hf.
    rewrite <- Hlog, Hmade, made_lines in Hf. discriminate.
Qed.

Lemma failed_formation_publishes_fatal_witness :
  exists first rest post,
    ["A"; "B"] = ["A"] ++ "B" :: post
    /\ r_entry (main (Some ["A"; "B"]) scenario_second_fails) = Some (-1)%Z
    /\ r_cycles (main (Some ["A"; "B"]) scenario_second_fails) = first :: rest
    /\ map getId (c_bonds first) = ["A"] ++ ["B"]
    /\ length (c_bonds first) = 2%nat
    /\ c_lsp first = (-1)%Z
    /\ c_published first = Some "FATAL".
Proof.
  apply (failed_formation_publishes_fatal ["A"; "B"] ["A"] "B" scenario_second_fails).
  - vm_compute. discriminate.
  - vm_compute. reflexivity.
Defined.

(** C1, as the claim has it, fails.  In the fleet A, B, C with every bond
    formed, after B has published its own id the cycles leave
    lowest_safe_priority at 2, then 1, and what goes out is "B", the id at
    index 1; "A" is never published. *)
Lemma self_report_does_not_publish_A :
  map (fun c => (c_lsp c, c_published c))
    (r_cycles (main (Some ["A"; "B"; "C"]) scenario_ABC))
  = [(2%Z, None); (1%Z, Some "B"); (1%Z, Some "B")]
  /\ ~ In (Some "A")
         (map c_published (r_cycles (main (Some ["A"; "B"; "C"]) scenario_ABC))).
Proof.
  split; [vm_compute; reflexivity|].
  vm_compute. intros [H | [H | [H | H]]]; try discriminate H. exact H.
Qed.

(** C1, amended.  With three untouched links for A, B and C and
    lowest_safe_priority at 2, a cycle publishes nothing; once the message
    "B" has been delivered, B's link alone reports safety active, the next
    cycle sets lowest_safe_priority to 1 and publishes "B", the id of the
    link at index 1. *)
Theorem self_report_hands_over_to_reporter
    (a b c : SafetyClient.t) (later : list tick) :
  quiet "A" a -> quiet "B" b -> quiet "C" c ->
  exists cycle1 cycle2 more,
    fst (loop (Tick true [SafetyMsg "B"] :: later) [a; b; c] 2) =
      cycle1 :: cycle2 :: more
    /\ c_lsp cycle1 = 2%Z /\ c_published cycle1 = None
    /\ map isSafetyActive (c_bonds cycle2) = [false; true; false]
    /\ c_lsp cycle2 = 1%Z /\ c_published cycle2 = Some "B".
Proof.
  intros (Ha & Hfa & Hsa & Hxa) (Hb & Hfb & Hsb & Hxb) (Hc & Hfc & Hsc & Hxc).
  destruct a as [ida fma fa sa oa ba], b as [idb fmb fb sb ob bb],
    c as [idc fmc fc sc oc bc]; simpl in *; subst.
  set (bonds := [Build "A" "FATAL" false false oa ba;
                 Build "B" "FATAL" false false ob bb;
                 Build "C" "FATAL" false false oc bc]).
  set (bonds' := [Build "A" "FATAL" false false oa ba;
                  Build "B" "FATAL" false true ob bb;
                  Build "C" "FATAL" false false oc bc]).
  assert (Hspin : spinOnce [SafetyMsg "B"] bonds = bonds') by reflexivity.
  assert (Hpass : check_bonds bonds 2 = 2%Z) by reflexivity.
  assert (Hpass' : check_bonds bonds' 2 = 1%Z) by reflexivity.
  destruct (loop_in_range later bonds' 2)
    as (_ & (cycle2 & more & Hcycles & Hbonds & Hlsp) & Hall);
    [vm_compute; split; [discriminate | reflexivity]|].
  rewrite Hcycles in Hall. apply Forall_cons in Hall as [(_ & _ & Hpub) _].
  exists (Cycle bonds 2 None), cycle2, more.
  cbn [loop]. rewrite Hpass.
  replace (range_ok bonds 2) with true by reflexivity.
  replace (publish bonds 2) with (@None string) by reflexivity.
  cbn [ok queue]. rewrite Hspin.
  destruct (loop later bonds' 2) as [cycles how]. simpl in Hcycles. subst cycles.
  rewrite Hpub, Hbonds, Hlsp, Hpass'. simpl.
  repeat split; reflexivity.
Qed.

Lemma self_report_hands_over_to_reporter_witness :
  exists cycle1 cycle2 more,
    fst (loop [Tick true [SafetyMsg "B"]; Tick true []]
           [onFormed (SafetyClient.new "A"); onFormed (SafetyClient.new "B");
            onFormed (SafetyClient.new "C")] 2) =
      cycle1 :: cycle2 :: more
    /\ c_lsp cycle1 = 2%Z /\ c_published cycle1 = None
    /\ map isSafetyActive (c_bonds cycle2) = [false; true; false]
    /\ c_lsp cycle2 = 1%Z /\ c_published cycle2 = Some "B".
Proof.
  apply (self_report_hands_over_to_reporter
           (onFormed (SafetyClient.new "A")) (onFormed (SafetyClient.new "B"))
           (onFormed (SafetyClient.new "C")) [Tick true []]);
    repeat split; reflexivity.
Defined.

(** * Further properties of the client *)

Lemma processSafetyMessage_keeps_bond (message : string) (c : SafetyClient.t) :
  formed_ (processSafetyMessage message c) = formed_ c
  /\ broken_ (processSafetyMessage message c) = broken_ c.
Proof.
  unfold processSafetyMessage.
  destruct (message =? bond_id_ c); [auto|].
  destruct (message =? fatal_message_ c); auto.
Qed.

Lemma processSafetyMessage_comm (m1 m2 : string) (c : SafetyClient.t) :
  processSafetyMessage m1 (processSafetyMessage m2 c)
  = processSafetyMessage m2 (processSafetyMessage m1 c).
Proof.
  destruct c as [id fm fa sa fo br].
  unfold processSafetyMessage; simpl.
  destruct (m2 =? id) eqn:H2id, (m2 =? fm) eqn:H2fm,
    (m1 =? id) eqn:H1id, (m1 =? fm) eqn:H1fm; simpl;
    rewrite ?H1id, ?H1fm, ?H2id, ?H2fm; reflexivity.
Qed.

Lemma apply_idempotent (c : SafetyClient.t) (o : op) :
  apply (apply c o) o = apply c o.
Proof.
  destruct o as [message | |]; simpl; [|reflexivity|reflexivity].
  destruct c as [id fm fa sa fo br].
  unfold processSafetyMessage; simpl.
  destruct (message =? id) eqn:Hid; simpl; rewrite ?Hid; [reflexivity|].
  destruct (message =? fm) eqn:Hfm; simpl; rewrite ?Hid, ?Hfm; reflexivity.
Qed.

(** X1. The two bond flags exclude each other: after construction and any
    sequence of operations a client is never both formed and broken. *)
Theorem never_formed_and_broken (bond_id : string) (ops : list op) :
  formed_ (run ops (SafetyClient.new bond_id))
  && broken_ (run ops (SafetyClient.new bond_id)) = false.
Proof.
  assert (Hinv : forall c, formed_ c && broken_ c = false ->
                           formed_ (run ops c) && broken_ (run ops c) = false).
  { induction ops as [|o ops IH]; intros c Hc; simpl; [exact Hc|].
    apply IH. destruct o as [message | |]; simpl; [|reflexivity|reflexivity].
    destruct (processSafetyMessage_keeps_bond message c) as [-> ->]. exact Hc. }
  apply Hinv. reflexivity.
Qed.

(** X2. A broken client is a fatal one: after construction and any sequence
    of operations, a client whose [broken_] flag is up answers true to both
    [isFatalActive] and [isSafetyActive]. *)
Theorem broken_client_is_fatal (bond_id : string) (ops : list op) :
  broken_ (run ops (SafetyClient.new bond_id)) = true ->
  isFatalActive (run ops (SafetyClient.new bond_id)) = true
  /\ isSafetyActive (run ops (SafetyClient.new bond_id)) = true.
Proof.
  assert (Hinv : forall c,
            (broken_ c = true ->
             isFatalActive c = true /\ isSafetyActive c = true) ->
            broken_ (run ops c) = true ->
            isFatalActive (run ops c) = true /\ isSafetyActive (run ops c) = true).
  { induction ops as [|o ops IH]; intros c Hc; simpl; [exact Hc|].
    apply IH. destruct o as [message | |]; simpl.
    - destruct (processSafetyMessage_keeps_bond message c) as [_ ->].
      intros Hb. destruct (Hc Hb) as [Hf Hs]. split.
      + apply (apply_keeps_fatal c (ProcessSafetyMessage message) Hf).
      + apply (apply_keeps_safety c (ProcessSafetyMessage message) Hs).
    - auto.
    - discriminate. }
  apply Hinv. discriminate.
Qed.

Lemma broken_client_is_fatal_witness :
  isFatalActive
    (run [OnFormed; ProcessSafetyMessage "A"; OnBroken; ProcessSafetyMessage "B"]
       (SafetyClient.new "A")) = true.
Proof.
  apply (broken_client_is_fatal "A"
           [OnFormed; ProcessSafetyMessage "A"; OnBroken; ProcessSafetyMessage "B"]).
  reflexivity.
Defined.

(** X3. The order in which messages of the "safety" topic are delivered does
    not matter: two sequences of messages that are permutations of each other
    leave a client in the same state. *)
Theorem message_order_is_irrelevant
    (messages messages' : list string) (c : SafetyClient.t) :
  Permutation messages messages' ->
  run (map ProcessSafetyMessage messages) c
  = run (map ProcessSafetyMessage messages') c.
Proof.
  intros Hperm. revert c.
  induction Hperm as [|m l l' _ IH|m1 m2 l|l l' l'' _ IH1 _ IH2]; intros c; simpl.
  - reflexivity.
  - apply IH.
  - now rewrite processSafetyMessage_comm.
  - now rewrite IH1.
Qed.

Lemma message_order_is_irrelevant_witness :
  run (map ProcessSafetyMessage ["FATAL"; "A"; "B"]) (SafetyClient.new "A")
  = run (map ProcessSafetyMessage ["B"; "FATAL"; "A"]) (SafetyClient.new "A").
Proof.
  apply (message_order_is_irrelevant ["FATAL"; "A"; "B"] ["B"; "FATAL"; "A"]).
  change ["FATAL"; "A"; "B"] with (["FATAL"; "A"] ++ ["B"]).
  change ["B"; "FATAL"; "A"] with (["B"] ++ ["FATAL"; "A"]).
  apply Permutation_app_comm.
Defined.

(** X4. Every operation of the client is idempotent: a message or a bond
    callback that arrives twice in a row leaves the client as the first
    arrival left it.  And [onBroken] overrides an earlier [onFormed]: the
    client ends as if [onFormed] had not run. *)
Theorem repeated_delivery_changes_nothing (c : SafetyClient.t) (o : op) :
  run [o; o] c = run [o] c
  /\ onBroken (onFormed c) = onBroken c.
Proof.
  split; [simpl; apply apply_idempotent | reflexivity].
Qed.

(** ** Waiting for the bond *)

Lemma run_broken_is_fatal (ops : list op) :
  forall c,
    (broken_ c = true -> isFatalActive c = true /\ isSafetyActive c = true) ->
    broken_ (run ops c) = true ->
    isFatalActive (run ops c) = true /\ isSafetyActive (run ops c) = true.
Proof.
  induction ops as [|o ops IH]; intros c Hc; simpl; [exact Hc|].
  apply IH. destruct o as [message | |]; simpl.
  - destruct (processSafetyMessage_keeps_bond message c) as [_ ->].
    intros Hb. destruct (Hc Hb) as [Hf Hs]. split.
    + apply (apply_keeps_fatal c (ProcessSafetyMessage message) Hf).
    + apply (apply_keeps_safety c (ProcessSafetyMessage message) Hs).
  - auto.
  - discriminate.
Qed.

Lemma waitUntilSafe_runs (env : list tick) :
  forall others this,
    exists ops, w_this (waitUntilSafe env others this) = run ops this.
Proof.
  induction env as [|now later IH]; intros others this; simpl;
    [exists []; reflexivity|].
  destruct (ok now); [|exists []; reflexivity].
  destruct (broken_ this); [exists []; reflexivity|].
  destruct (formed_ this); [exists []; reflexivity|].
  destruct (IH (spinOnce (queue now) others)
              (spin (queue now) (length others) this)) as [ops ->].
  exists (concat (map (triggered (length others)) (queue now)) ++ ops).
  unfold spin. now rewrite run_app.
Qed.

(** X5. What [formBond] leaves behind, by outcome.  It answers true only with
    the client formed and not broken, false only with the client broken, and
    in both cases without having used up the tick at which it returned, at
    which [ros::ok()] held.  It runs off its end only at a tick where
    [ros::ok()] is false, and it is still waiting at the end of the ticks only
    if [ros::ok()] held at every one of them. *)
Theorem formBond_outcomes
    (env : list tick) (others : list SafetyClient.t) (this : SafetyClient.t) :
  let w := formBond env others this in
  match w_outcome w with
  | Returned true =>
      formed_ (w_this w) = true /\ broken_ (w_this w) = false
      /\ exists now later, w_env w = now :: later /\ ok now = true
  | Returned false =>
      broken_ (w_this w) = true
      /\ exists now later, w_env w = now :: later /\ ok now = true
  | NoReturn => exists now later, w_env w = now :: later /\ ok now = false
  | Spinning => w_env w = [] /\ forallb ok env = true
  end.
Proof.
  unfold formBond. revert others this.
  induction env as [|now later IH]; intros others this; simpl; [auto|].
  destruct (ok now) eqn:Hok; simpl; [|eauto].
  destruct (broken_ this) eqn:Hbroken; simpl; [eauto|].
  destruct (formed_ this) eqn:Hformed; simpl; [eauto 6|].
  apply IH.
Qed.

Lemma formBond_shape_false
    (env : list tick) (others : list SafetyClient.t) (this : SafetyClient.t) :
  w_outcome (formBond env others this) = Returned false ->
  broken_ (w_this (formBond env others this)) = true.
Proof.
  unfold formBond. revert others this.
  induction env as [|now later IH]; intros others this; simpl; [discriminate|].
  destruct (ok now); simpl; [|discriminate].
  destruct (broken_ this) eqn:Hbroken; simpl; [auto|].
  destruct (formed_ this); simpl; [discriminate|].
  apply IH.
Qed.

(** X6. A formation that fails leaves a fatal link: when [formBond] answers
    false for a client fresh from its constructor, that client reports both
    fatal and safety active. *)
Theorem failed_formation_leaves_fatal_link
    (env : list tick) (others : list SafetyClient.t) (bond_id : string) :
  w_outcome (formBond env others (SafetyClient.new bond_id)) = Returned false ->
  isFatalActive (w_this (formBond env others (SafetyClient.new bond_id))) = true
  /\ isSafetyActive (w_this (formBond env others (SafetyClient.new bond_id))) = true.
Proof.
  intros Hfalse.
  pose proof (formBond_shape_false env others (SafetyClient.new bond_id) Hfalse)
    as Hbroken.
  unfold formBond in *.
  destruct (waitUntilSafe_runs env others (SafetyClient.new bond_id)) as [ops Hops].
  rewrite Hops in *.
  apply run_broken_is_fatal; [discriminate | exact Hbroken].
Qed.

Lemma failed_formation_leaves_fatal_link_witness :
  isFatalActive
    (w_this (formBond [Tick true [BondBroken 1]; Tick true []]
               [onFormed (SafetyClient.new "A")] (SafetyClient.new "B"))) = true.
Proof.
  apply (failed_formation_leaves_fatal_link
           [Tick true [BondBroken 1]; Tick true []]
           [onFormed (SafetyClient.new "A")] "B").
  reflexivity.
Defined.

(** * Further properties of the monitor *)

(** ** What the evaluation pass computes *)

Lemma check_bond_flagged (i : Z) (bond : SafetyClient.t) (lsp : Z) :
  (0 <= i < Int32.half)%Z ->
  (isSafetyActive bond = true -> (check_bond i bond lsp <= i)%Z)
  /\ (isFatalActive bond = true -> (check_bond i bond lsp <= i - 1)%Z).
Proof.
  intros Hi. unfold check_bond. rewrite (sub_one_small i Hi).
  destruct (isSafetyActive bond), (isFatalActive bond);
    split; intros H; try discriminate H; lia.
Qed.

Lemma check_bond_attained (i : Z) (bond : SafetyClient.t) (lsp : Z) :
  (0 <= i < Int32.half)%Z ->
  check_bond i bond lsp = lsp
  \/ (isSafetyActive bond = true /\ check_bond i bond lsp = i)
  \/ (isFatalActive bond = true /\ check_bond i bond lsp = (i - 1)%Z).
Proof.
  intros Hi. unfold check_bond. rewrite (sub_one_small i Hi).
  destruct (isSafetyActive bond), (isFatalActive bond); lia.
Qed.

Lemma check_from_flagged (bonds : list SafetyClient.t) (n : nat) :
  forall i lsp j bond,
    (0 <= i)%Z -> (i + Z.of_nat n <= Int32.half)%Z ->
    (i <= j < i + Z.of_nat n)%Z ->
    bonds !! Z.to_nat j = Some bond ->
    (isSafetyActive bond = true -> (check_from n i bonds lsp <= j)%Z)
    /\ (isFatalActive bond = true -> (check_from n i bonds lsp <= j - 1)%Z).
Proof.
  induction n as [|n IH]; intros i lsp j bond Hi Hn Hj Hbond; [lia|].
  simpl. destruct (bonds !! Z.to_nat i) as [bond_i|] eqn:Hlook.
  - destruct (Z.eq_dec j i) as [->|Hne].
    + rewrite Hlook in Hbond. injection Hbond as ->.
      pose proof (check_from_le bonds n (i + 1)%Z (check_bond i bond lsp)).
      destruct (check_bond_flagged i bond lsp) as [Hs Hf]; [lia|].
      split; intros H'; [specialize (Hs H') | specialize (Hf H')]; lia.
    + apply IH; [lia | lia | lia | exact Hbond].
  - apply lookup_ge_None in Hlook. apply lookup_lt_Some in Hbond. lia.
Qed.

Lemma check_from_attained (bonds : list SafetyClient.t) (n : nat) :
  forall i lsp,
    (0 <= i)%Z -> (i + Z.of_nat n <= Int32.half)%Z ->
    check_from n i bonds lsp = lsp
    \/ exists j bond,
         (i <= j < i + Z.of_nat n)%Z /\ bonds !! Z.to_nat j = Some bond
         /\ ((isSafetyActive bond = true /\ check_from n i bonds lsp = j)
             \/ (isFatalActive bond = true
                 /\ check_from n i bonds lsp = (j - 1)%Z)).
Proof.
  induction n as [|n IH]; intros i lsp Hi Hn; simpl; [auto|].
  destruct (bonds !! Z.to_nat i) as [bond|] eqn:Hlook; [|auto].
  destruct (IH (i + 1)%Z (check_bond i bond lsp)) as [Hsame | Hlater];
    [lia | lia | |].
  - rewrite Hsame.
    destruct (check_bond_attained i bond lsp) as [H | [[Hs H] | [Hf H]]];
      [lia | auto | |]; right; exists i, bond;
      (split; [lia|]); (split; [exact Hlook|]); auto.
  - destruct Hlater as (j & bond' & Hj & Hbond' & Hcase).
    right. exists j, bond'. split; [lia|]. auto.
Qed.

Lemma check_bonds_flagged (bonds : list SafetyClient.t) (lsp : Z)
    (k : nat) (bond : SafetyClient.t) :
  (Z.of_nat (length bonds) <= Int32.max_signed)%Z ->
  bonds !! k = Some bond ->
  (isSafetyActive bond = true -> (check_bonds bonds lsp <= Z.of_nat k)%Z)
  /\ (isFatalActive bond = true -> (check_bonds bonds lsp <= Z.of_nat k - 1)%Z).
Proof.
  intros Hfits Hbond.
  unfold check_bonds. rewrite (of_size_small _ Hfits), Nat2Z.id.
  apply (check_from_flagged bonds (length bonds) 0 lsp (Z.of_nat k) bond);
    [lia | unfold Int32.max_signed in Hfits; lia | | now rewrite Nat2Z.id].
  apply lookup_lt_Some in Hbond. lia.
Qed.

Lemma check_bonds_attained (bonds : list SafetyClient.t) (lsp : Z) :
  (Z.of_nat (length bonds) <= Int32.max_signed)%Z ->
  check_bonds bonds lsp = lsp
  \/ exists k bond,
       bonds !! k = Some bond
       /\ ((isSafetyActive bond = true /\ check_bonds bonds lsp = Z.of_nat k)
           \/ (isFatalActive bond = true
               /\ check_bonds bonds lsp = (Z.of_nat k - 1)%Z)).
Proof.
  intros Hfits.
  unfold check_bonds. rewrite (of_size_small _ Hfits), Nat2Z.id.
  destruct (check_from_attained bonds (length bonds) 0 lsp) as [H | H];
    [lia | unfold Int32.max_signed in Hfits; lia | auto |].
  destruct H as (j & bond & Hj & Hbond & Hcase).
  right. exists (Z.to_nat j), bond. rewrite Z2Nat.id by lia. auto.
Qed.

(** X7. The evaluation pass computes a minimum.  For a fleet whose size fits
    [int32_t], the value it leaves is at most the value it started from, at
    most the index [k] of every link that reports safety active and at most
    [k - 1] for every link that reports fatal active; and it is one of those
    values. *)
Theorem check_bonds_is_minimum (bonds : list SafetyClient.t) (lsp : Z) :
  (Z.of_nat (length bonds) <= Int32.max_signed)%Z ->
  (check_bonds bonds lsp <= lsp)%Z
  /\ (forall k bond,
        bonds !! k = Some bond ->
        (isSafetyActive bond = true -> (check_bonds bonds lsp <= Z.of_nat k)%Z)
        /\ (isFatalActive bond = true ->
            (check_bonds bonds lsp <= Z.of_nat k - 1)%Z))
  /\ (check_bonds bonds lsp = lsp
      \/ exists k bond,
           bonds !! k = Some bond
           /\ ((isSafetyActive bond = true
                /\ check_bonds bonds lsp = Z.of_nat k)
               \/ (isFatalActive bond = true
                   /\ check_bonds bonds lsp = (Z.of_nat k - 1)%Z))).
Proof.
  intros Hfits. split; [apply check_bonds_le|]. split.
  - intros k bond. now apply check_bonds_flagged.
  - now apply check_bonds_attained.
Qed.

Lemma check_bonds_is_minimum_witness :
  (check_bonds
     [SafetyClient.new "A"; onBroken (SafetyClient.new "B");
      processSafetyMessage "C" (SafetyClient.new "C")] 2 <= Z.of_nat 1 - 1)%Z.
Proof.
  assert (Hfits : (Z.of_nat (length
             [SafetyClient.new "A"; onBroken (SafetyClient.new "B");
              processSafetyMessage "C" (SafetyClient.new "C")])
           <= Int32.max_signed)%Z) by (vm_compute; discriminate).
  destruct (check_bonds_is_minimum _ 2%Z Hfits) as (_ & Hflagged & _).
  destruct (Hflagged 1%nat (onBroken (SafetyClient.new "B")) eq_refl) as [_ Hfatal].
  apply Hfatal. reflexivity.
Defined.

(** ** Cycles of a run *)

Lemma loop_cycles_pass (env : list tick) :
  forall bonds lsp,
    Forall (fun c => exists prev, c_lsp c = check_bonds (c_bonds c) prev)
      (fst (loop env bonds lsp)).
Proof.
  induction env as [|now later IH]; intros bonds lsp; cbn [loop];
    destruct (range_ok bonds (check_bonds bonds lsp)); simpl;
    try (constructor; fail).
  - constructor; [simpl; eauto | constructor].
  - destruct (ok now); [|constructor; [simpl; eauto | constructor]].
    specialize (IH (spinOnce (queue now) bonds) (check_bonds bonds lsp)).
    destruct (loop later (spinOnce (queue now) bonds) (check_bonds bonds lsp))
      as [cycles how]; simpl in *.
    constructor; [simpl; eauto | exact IH].
Qed.

(** The cycles of a run of [main] are those of its loop. *)
Lemma main_cycles (bond_ids : list string) (env : list tick) :
  r_cycles (main (Some bond_ids) env) = []
  \/ exists log bonds lsp env',
       bond_ids <> []
       /\ form_bonds bond_ids env [] []
            (Int32.sub (Int32.of_size (length bond_ids)) 1)
          = Ready log bonds lsp env'
       /\ r_log (main (Some bond_ids) env) = log
       /\ r_cycles (main (Some bond_ids) env) = fst (loop env' bonds lsp).
Proof.
  destruct (decide (bond_ids = [])) as [->|Hne]; [left; reflexivity|].
  rewrite (main_run bond_ids env Hne).
  destruct (form_bonds _ _ _ _ _) as [log bonds lsp env'|log how] eqn:Hform;
    [|left; reflexivity].
  right. exists log, bonds, lsp, env'. auto.
Qed.

Lemma sorted_after (before after : list Z) (x : Z) :
  StronglySorted Z.ge (before ++ x :: after) ->
  Forall (fun y => (y <= x)%Z) after.
Proof.
  induction before as [|b before IH]; simpl; intros Hsorted;
    apply StronglySorted_inv in Hsorted as [Hrest Hall]; [|auto].
  eapply Forall_impl; [exact Hall|]. simpl. intros y Hy. lia.
Qed.

(** Every suffix of the cycles of a loop is the cycles of a loop started at
    the first cycle of the suffix. *)
Lemma loop_suffix (env : list tick) :
  forall bonds lsp before c after,
    fst (loop env bonds lsp) = before ++ c :: after ->
    exists env' prev, fst (loop env' (c_bonds c) prev) = c :: after.
Proof.
  induction env as [|now later IH]; intros bonds lsp before c after H.
  - exists [], lsp. cbn [loop] in *.
    destruct (range_ok bonds (check_bonds bonds lsp)) eqn:Hok; simpl in H;
      [|now destruct before].
    destruct before as [|x [|y before]]; simpl in H; try discriminate H.
    injection H as <- <-. simpl. now rewrite Hok.
  - pose proof H as Hcopy. cbn [loop] in H.
    destruct (range_ok bonds (check_bonds bonds lsp)) eqn:Hok; simpl in H;
      [|now destruct before].
    destruct (ok now) eqn:Hnow.
    + destruct (loop later (spinOnce (queue now) bonds) (check_bonds bonds lsp))
        as [cycles how] eqn:Hloop; simpl in H.
      destruct before as [|x before]; simpl in H.
      * injection H as <- <-. exists (now :: later), lsp. exact Hcopy.
      * injection H as _ H.
        apply (IH (spinOnce (queue now) bonds) (check_bonds bonds lsp) before).
        now rewrite Hloop.
    + destruct before as [|x [|y before]]; simpl in H; try discriminate H.
      injection H as <- <-. exists (now :: later), lsp. exact Hcopy.
Qed.

Lemma spinOnce_lookup (events : list event) (bonds : list SafetyClient.t)
    (i : nat) :
  spinOnce events bonds !! i = spin events i <$> bonds !! i.
Proof. apply list_lookup_imap. Qed.

Lemma loop_flags_kept (env : list tick) :
  forall bonds lsp, Forall (flags_kept bonds) (fst (loop env bonds lsp)).
Proof.
  assert (Hhere : forall bonds lsp p, flags_kept bonds (Cycle bonds lsp p))
    by (intros bonds lsp p i bond Hbond; exists bond; auto).
  induction env as [|now later IH]; intros bonds lsp; cbn [loop];
    destruct (range_ok bonds (check_bonds bonds lsp)); simpl;
    try (constructor; fail).
  - constructor; [apply Hhere | constructor].
  - destruct (ok now); [|constructor; [apply Hhere | constructor]].
    specialize (IH (spinOnce (queue now) bonds) (check_bonds bonds lsp)).
    destruct (loop later (spinOnce (queue now) bonds) (check_bonds bonds lsp))
      as [cycles how]; simpl in *.
    constructor; [apply Hhere|].
    eapply Forall_impl; [exact IH|].
    intros c Hc i bond Hbond.
    destruct (Hc i (spin (queue now) i bond)) as (bond' & Hlook & Hs & Hf).
    { rewrite spinOnce_lookup, Hbond. reflexivity. }
    exists bond'. split; [exact Hlook|].
    split; intros H; [apply Hs | apply Hf]; unfold spin;
      [apply run_keeps_safety | apply run_keeps_fatal]; exact H.
Qed.

(** X8. In every cycle of every run, lowest_safe_priority lies at or below
    every flagged link: at most [k] when link [k] reports safety active, at
    most [k - 1] when it reports fatal active. *)
Theorem flagged_link_bounds_cycle
    (bond_ids : list string) (env : list tick) (c : cycle)
    (k : nat) (bond : SafetyClient.t) :
  (Z.of_nat (length bond_ids) <= Int32.max_signed)%Z ->
  In c (r_cycles (main (Some bond_ids) env)) ->
  c_bonds c !! k = Some bond ->
  (isSafetyActive bond = true -> (c_lsp c <= Z.of_nat k)%Z)
  /\ (isFatalActive bond = true -> (c_lsp c <= Z.of_nat k - 1)%Z).
Proof.
  intros Hfits Hin Hbond.
  destruct (main_cycles_sound bond_ids env Hfits) as [_ Hsound].
  rewrite Forall_forall in Hsound.
  destruct (Hsound c) as (_ & Hlen & _); [apply list_elem_of_In, Hin|].
  destruct (main_cycles bond_ids env) as [Hnone | Hloop];
    [rewrite Hnone in Hin; destruct Hin|].
  destruct Hloop as (log & bonds & lsp & env' & _ & _ & _ & Hcycles).
  pose proof (loop_cycles_pass env' bonds lsp) as Hpass.
  rewrite <- Hcycles, Forall_forall in Hpass.
  destruct (Hpass c) as [prev ->]; [apply list_elem_of_In, Hin|].
  apply check_bonds_flagged; [lia | exact Hbond].
Qed.

Lemma flagged_link_bounds_cycle_witness :
  exists c,
    hd_error (r_cycles (main (Some ["A"; "B"]) scenario_second_fails)) = Some c
    /\ (c_lsp c <= Z.of_nat 1 - 1)%Z.
Proof.
  eexists. split; [vm_compute; reflexivity|].
  eapply (flagged_link_bounds_cycle ["A"; "B"] scenario_second_fails _ 1%nat).
  - vm_compute. discriminate.
  - vm_compute. left. reflexivity.
  - reflexivity.
  - reflexivity.
Defined.

(** X9. When the most senior link (index 0) reports fatal active in a cycle,
    that cycle leaves lowest_safe_priority at -1 and publishes "FATAL". *)
Theorem fatal_senior_link_publishes_fatal
    (bond_ids : list string) (env : list tick) (c : cycle)
    (bond : SafetyClient.t) :
  (Z.of_nat (length bond_ids) <= Int32.max_signed)%Z ->
  In c (r_cycles (main (Some bond_ids) env)) ->
  c_bonds c !! 0%nat = Some bond ->
  isFatalActive bond = true ->
  c_lsp c = (-1)%Z /\ c_published c = Some "FATAL".
Proof.
  intros Hfits Hin Hbond Hfatal.
  destruct (main_cycles_sound bond_ids env Hfits) as [_ Hsound].
  rewrite Forall_forall in Hsound.
  destruct (Hsound c) as (_ & Hlen & Hrange & Hpub);
    [apply list_elem_of_In, Hin|].
  destruct (main_cycles bond_ids env) as [Hnone | Hloop];
    [rewrite Hnone in Hin; destruct Hin|].
  destruct Hloop as (log & bonds & lsp & env' & _ & _ & _ & Hcycles).
  pose proof (loop_cycles_pass env' bonds lsp) as Hpass.
  rewrite <- Hcycles, Forall_forall in Hpass.
  destruct (Hpass c) as [prev Hprev]; [apply list_elem_of_In, Hin|].
  destruct (check_bonds_flagged (c_bonds c) prev 0 bond) as [_ Hle];
    [lia | exact Hbond |].
  specialize (Hle Hfatal). rewrite <- Hprev in Hle.
  assert (Hminus : c_lsp c = (-1)%Z) by lia.
  split; [exact Hminus|]. rewrite Hpub, Hminus. reflexivity.
Qed.

Lemma fatal_senior_link_publishes_fatal_witness :
  exists c,
    hd_error (r_cycles (main (Some ["A"; "B"])
                          [Tick true [BondBroken 0]; Tick true []])) = Some c
    /\ c_published c = Some "FATAL".
Proof.
  eexists. split; [vm_compute; reflexivity|].
  eapply (fatal_senior_link_publishes_fatal ["A"; "B"]
            [Tick true [BondBroken 0]; Tick true []]).
  - vm_compute. discriminate.
  - vm_compute. left. reflexivity.
  - reflexivity.
  - reflexivity.
Defined.

(** X10. FATAL is final.  Once a cycle has left lowest_safe_priority at -1,
    that cycle and every later cycle of the run leave it at -1 and publish
    "FATAL". *)
Theorem fatal_is_final
    (bond_ids : list string) (env : list tick)
    (before after : list cycle) (c : cycle) :
  (Z.of_nat (length bond_ids) <= Int32.max_signed)%Z ->
  r_cycles (main (Some bond_ids) env) = before ++ c :: after ->
  c_lsp c = (-1)%Z ->
  Forall (fun c' => c_lsp c' = (-1)%Z /\ c_published c' = Some "FATAL")
    (c :: after).
Proof.
  intros Hfits Hcycles Hminus.
  destruct (main_cycles_sound bond_ids env Hfits) as [_ Hsound].
  rewrite Hcycles in Hsound. apply Forall_app in Hsound as [_ Hsound].
  assert (Hbelow : Forall (fun c' => (c_lsp c' <= c_lsp c)%Z) (c :: after)).
  { constructor; [lia|].
    destruct (main_cycles bond_ids env) as [Hnone | Hloop];
      [rewrite Hnone in Hcycles; now destruct before|].
    destruct Hloop as (log & bonds & lsp & env' & _ & _ & _ & Hloop).
    pose proof (loop_sorted env' bonds lsp) as Hsorted.
    rewrite <- Hloop, Hcycles, map_app in Hsorted. simpl in Hsorted.
    apply (sorted_after (lsp :: map c_lsp before)) in Hsorted.
    exact (proj1 (List.Forall_map c_lsp (fun y => (y <= c_lsp c)%Z) after) Hsorted). }
  rewrite Forall_forall in Hsound, Hbelow. apply Forall_forall.
  intros c' Hin.
  destruct (Hsound c' Hin) as (_ & _ & Hrange & Hpub).
  specialize (Hbelow c' Hin). simpl in Hbelow.
  assert (Hc' : c_lsp c' = (-1)%Z) by lia.
  split; [exact Hc'|]. rewrite Hpub, Hc'. reflexivity.
Qed.

Lemma fatal_is_final_witness :
  exists first second,
    r_cycles (main (Some ["A"; "B"]) scenario_second_fails) = [first; second]
    /\ c_published second = Some "FATAL".
Proof.
  do 2 eexists. split; [vm_compute; reflexivity|].
  match goal with
  | |- c_published ?second = _ =>
      assert (Hall : Forall
                (fun c' => c_lsp c' = (-1)%Z /\ c_published c' = Some "FATAL")
                [second])
  end.
  { eapply (fatal_is_final ["A"; "B"] scenario_second_fails [_] []).
    - vm_compute. discriminate.
    - vm_compute. reflexivity.
    - reflexivity. }
  apply Forall_cons in Hall as [[_ Hpub] _]. exact Hpub.
Defined.

(** X11. Degradation is permanent across cycles: a link that reports safety
    active (or fatal active) in one cycle of a run reports it in every later
    cycle, at the same index. *)
Theorem flags_persist_across_cycles
    (bond_ids : list string) (env : list tick)
    (before after : list cycle) (c : cycle) :
  r_cycles (main (Some bond_ids) env) = before ++ c :: after ->
  Forall (flags_kept (c_bonds c)) (c :: after).
Proof.
  intros Hcycles.
  destruct (main_cycles bond_ids env) as [Hnone | Hloop];
    [rewrite Hnone in Hcycles; now destruct before|].
  destruct Hloop as (log & bonds & lsp & env' & _ & _ & _ & Hloop).
  rewrite Hloop in Hcycles.
  destruct (loop_suffix env' bonds lsp before c after Hcycles)
    as (env'' & prev & Hsuffix).
  rewrite <- Hsuffix. apply loop_flags_kept.
Qed.

Lemma flags_persist_across_cycles_witness :
  exists first second third,
    r_cycles (main (Some ["A"; "B"; "C"]) scenario_ABC) = [first; second; third]
    /\ flags_kept (c_bonds second) third.
Proof.
  do 3 eexists. split; [vm_compute; reflexivity|].
  match goal with
  | |- flags_kept (c_bonds ?second) ?third =>
      assert (Hall : Forall (flags_kept (c_bonds second)) [second; third])
  end.
  { eapply (flags_persist_across_cycles ["A"; "B"; "C"] scenario_ABC [_] [_]).
    vm_compute. reflexivity. }
  apply Forall_cons in Hall as [_ Hall].
  apply Forall_cons in Hall as [Hthird _]. exact Hthird.
Defined.

Lemma loop_ids (env : list tick) :
  forall bonds lsp,
    Forall (fun c => map getId (c_bonds c) = map getId bonds)
      (fst (loop env bonds lsp)).
Proof.
  induction env as [|now later IH]; intros bonds lsp; cbn [loop];
    destruct (range_ok bonds (check_bonds bonds lsp)); simpl;
    try (constructor; fail).
  - constructor; [reflexivity | constructor].
  - destruct (ok now); [|constructor; [reflexivity | constructor]].
    specialize (IH (spinOnce (queue now) bonds) (check_bonds bonds lsp)).
    destruct (loop later (spinOnce (queue now) bonds) (check_bonds bonds lsp))
      as [cycles how]; simpl in *.
    constructor; [reflexivity|].
    eapply Forall_impl; [exact IH|]. simpl. intros c Hc.
    now rewrite Hc, spinOnce_ids.
Qed.

(** X12. The fleet is the same in every cycle of a run: the same number of
    links, bonded to the same ids in the same order, so that a priority
    denotes the same node throughout. *)
Theorem same_fleet_in_every_cycle
    (bond_ids : list string) (env : list tick) (c1 c2 : cycle) :
  In c1 (r_cycles (main (Some bond_ids) env)) ->
  In c2 (r_cycles (main (Some bond_ids) env)) ->
  map getId (c_bonds c1) = map getId (c_bonds c2)
  /\ length (c_bonds c1) = length (c_bonds c2).
Proof.
  intros Hin1 Hin2.
  assert (Hids : map getId (c_bonds c1) = map getId (c_bonds c2)).
  { destruct (main_cycles bond_ids env) as [Hnone | Hloop];
      [rewrite Hnone in Hin1; destruct Hin1|].
    destruct Hloop as (log & bonds & lsp & env' & _ & _ & _ & Hloop).
    pose proof (loop_ids env' bonds lsp) as Hids.
    rewrite <- Hloop, Forall_forall in Hids.
    rewrite (Hids c1), (Hids c2) by (apply list_elem_of_In; assumption).
    reflexivity. }
  split; [exact Hids | apply same_ids_same_length, Hids].
Qed.

Lemma same_fleet_in_every_cycle_witness :
  exists first second third,
    r_cycles (main (Some ["A"; "B"; "C"]) scenario_ABC) = [first; second; third]
    /\ map getId (c_bonds first) = map getId (c_bonds third).
Proof.
  do 3 eexists. split; [vm_compute; reflexivity|].
  eapply (same_fleet_in_every_cycle ["A"; "B"; "C"] scenario_ABC).
  - vm_compute. left. reflexivity.
  - vm_compute. right. right. left. reflexivity.
Defined.

Lemma spin_flag_free (events : list event) (i : nat) (bond : SafetyClient.t) :
  flag_free (spin events i bond) -> flag_free bond.
Proof.
  intros [Hs Hf]. unfold flag_free, spin in *. split.
  - destruct (isSafetyActive bond) eqn:H; [|reflexivity].
    now rewrite run_keeps_safety in Hs.
  - destruct (isFatalActive bond) eqn:H; [|reflexivity].
    now rewrite run_keeps_fatal in Hf.
Qed.

Lemma check_bonds_flag_free (bonds : list SafetyClient.t) (lsp : Z) :
  (Z.of_nat (length bonds) <= Int32.max_signed)%Z ->
  Forall flag_free bonds -> check_bonds bonds lsp = lsp.
Proof.
  intros Hfits Hfree.
  destruct (check_bonds_attained bonds lsp Hfits)
    as [H | (k & bond & Hbond & Hcase)]; [exact H|].
  rewrite Forall_lookup in Hfree. destruct (Hfree k bond Hbond) as [Hs Hf].
  destruct Hcase as [[H _] | [H _]]; congruence.
Qed.

Lemma loop_flag_free (env : list tick) :
  forall bonds lsp,
    (Z.of_nat (length bonds) <= Int32.max_signed)%Z ->
    Forall (fun c => Forall flag_free (c_bonds c) -> c_lsp c = lsp)
      (fst (loop env bonds lsp)).
Proof.
  assert (Hhere : forall bonds lsp p,
            (Z.of_nat (length bonds) <= Int32.max_signed)%Z ->
            Forall flag_free (c_bonds (Cycle bonds (check_bonds bonds lsp) p)) ->
            c_lsp (Cycle bonds (check_bonds bonds lsp) p) = lsp)
    by (intros bonds lsp p Hfits Hfree; simpl in *;
        now apply check_bonds_flag_free).
  induction env as [|now later IH]; intros bonds lsp Hfits; cbn [loop];
    destruct (range_ok bonds (check_bonds bonds lsp)); simpl;
    try (constructor; fail).
  - constructor; [now apply Hhere | constructor].
  - destruct (ok now); [|constructor; [now apply Hhere | constructor]].
    pose proof (loop_flags_kept later (spinOnce (queue now) bonds)
                  (check_bonds bonds lsp)) as Hkept.
    specialize (IH (spinOnce (queue now) bonds) (check_bonds bonds lsp)).
    rewrite spinOnce_length in IH. specialize (IH Hfits).
    destruct (loop later (spinOnce (queue now) bonds) (check_bonds bonds lsp))
      as [cycles how]; simpl fst in *.
    constructor; [now apply Hhere|].
    rewrite Forall_forall in IH, Hkept. apply Forall_forall.
    intros c Hin Hfree. rewrite (IH c Hin Hfree).
    apply check_bonds_flag_free; [exact Hfits|].
    apply Forall_lookup. intros i bond Hbond.
    destruct (Hkept c Hin i (spin (queue now) i bond))
      as (bond' & Hlook & Hs & Hf);
      [rewrite spinOnce_lookup, Hbond; reflexivity|].
    rewrite Forall_lookup in Hfree. destruct (Hfree i bond' Hlook) as [Hs' Hf'].
    apply (spin_flag_free (queue now) i). split.
    + destruct (isSafetyActive (spin (queue now) i bond)); [|reflexivity].
      rewrite Hs in Hs'; [discriminate | reflexivity].
    + destruct (isFatalActive (spin (queue now) i bond)); [|reflexivity].
      rewrite Hf in Hf'; [discriminate | reflexivity].
Qed.

(** X13. The steady state is silent.  In a run whose start-up made every
    bond, a cycle in which no link reports safety or fatal active leaves
    lowest_safe_priority at N-1, the index of the most junior node, and
    publishes nothing. *)
Theorem steady_state_is_silent
    (bond_ids : list string) (env : list tick) (c : cycle) :
  (Z.of_nat (length bond_ids) <= Int32.max_signed)%Z ->
  r_log (main (Some bond_ids) env) = map MadeBond bond_ids ->
  In c (r_cycles (main (Some bond_ids) env)) ->
  Forall flag_free (c_bonds c) ->
  c_lsp c = (Z.of_nat (length bond_ids) - 1)%Z /\ c_published c = None.
Proof.
  intros Hfits Hlog Hin Hfree.
  destruct (main_cycles bond_ids env) as [Hnone | Hloop];
    [rewrite Hnone in Hin; destruct Hin|].
  destruct Hloop as (log & bonds & lsp & env' & Hne & Hform & Hlog' & Hloop).
  destruct (loop_entry bond_ids env log bonds lsp env' Hne Hfits Hform)
    as (Hids & _ & Hlen & Hlsp & Hover).
  rewrite Hlog' in Hlog. subst log.
  destruct Hover as [[_ ->] | (pre & id & post & _ & Hfailed & _)].
  2:{ pose proof (failed_line (map MadeBond pre) id) as Hf.
      rewrite <- Hfailed, made_lines in Hf. discriminate. }
  assert (Hsize : length bonds = length bond_ids).
  { apply (f_equal (@length string)) in Hids. now rewrite !length_map in Hids. }
  pose proof (loop_flag_free env' bonds (Z.of_nat (length bond_ids) - 1)) as Hquiet.
  pose proof (loop_ids env' bonds (Z.of_nat (length bond_ids) - 1)) as Hsame.
  destruct (main_cycles_sound bond_ids env Hfits) as [_ Hsound].
  rewrite <- Hloop, Forall_forall in Hquiet, Hsame.
  rewrite Forall_forall in Hsound.
  apply list_elem_of_In in Hin.
  destruct (Hsound c Hin) as (_ & _ & _ & Hpub).
  pose proof (same_ids_same_length _ _ (Hsame c Hin)) as Hsize'.
  assert (Hc : c_lsp c = (Z.of_nat (length bond_ids) - 1)%Z)
    by (apply Hquiet; [lia | exact Hin | exact Hfree]).
  split; [exact Hc|].
  rewrite Hpub, Hc. unfold publish.
  rewrite Hsize', Hsize, (of_size_small _ Hfits), sub_one_small
    by (unfold Int32.max_signed in Hfits; lia).
  rewrite Z.ltb_irrefl, andb_false_r.
  destruct (Z.ltb_spec (Z.of_nat (length bond_ids) - 1) 0); [lia | reflexivity].
Qed.

Lemma steady_state_is_silent_witness :
  exists first,
    hd_error (r_cycles (main (Some ["A"; "B"; "C"]) scenario_ABC)) = Some first
    /\ c_published first = None.
Proof.
  eexists. split; [vm_compute; reflexivity|].
  eapply (steady_state_is_silent ["A"; "B"; "C"] scenario_ABC).
  - vm_compute. discriminate.
  - vm_compute. reflexivity.
  - vm_compute. left. reflexivity.
  - repeat constructor.
Defined.

(** ** The monitor hears the topic it publishes on *)

Lemma spin_one_message (message : string) (i : nat) (bond : SafetyClient.t) :
  spin [SafetyMsg message] i bond = processSafetyMessage message bond.
Proof. reflexivity. Qed.

Lemma spinOnce_message_lookup (message : string) (bonds : list SafetyClient.t)
    (k : nat) (bond' : SafetyClient.t) :
  spinOnce [SafetyMsg message] bonds !! k = Some bond' ->
  exists bond,
    bonds !! k = Some bond /\ bond' = processSafetyMessage message bond.
Proof.
  rewrite spinOnce_lookup. destruct (bonds !! k) as [bond|]; simpl; [|discriminate].
  intros H. injection H as <-. exists bond. now rewrite spin_one_message.
Qed.

(** X14. The monitor's own grant does not move it.  In a fleet with distinct
    ids, none of them the sentinel "FATAL", when the monitor has published the
    id of a link and that message reaches the links (they subscribe to the
    topic the monitor publishes on), the next evaluation pass leaves
    lowest_safe_priority where it was and the same id is published again. *)
Theorem own_grant_is_a_fixed_point
    (bonds : list SafetyClient.t) (lsp : Z) (message : string) :
  (Z.of_nat (length bonds) <= Int32.max_signed)%Z ->
  NoDup (map getId bonds) ->
  Forall (fun bond => fatal_message_ bond = "FATAL") bonds ->
  message <> "FATAL" ->
  publish bonds (check_bonds bonds lsp) = Some message ->
  check_bonds (spinOnce [SafetyMsg message] bonds) (check_bonds bonds lsp)
  = check_bonds bonds lsp
  /\ publish (spinOnce [SafetyMsg message] bonds) (check_bonds bonds lsp)
     = Some message.
Proof.
  intros Hfits Hdistinct Hsentinel Hmessage Hpub.
  set (now := check_bonds bonds lsp) in *.
  set (bonds' := spinOnce [SafetyMsg message] bonds).
  assert (Hlen : length bonds' = length bonds) by apply spinOnce_length.
  unfold publish in Hpub.
  destruct ((now >? -1)%Z && (now <? Int32.sub (Int32.of_size (length bonds)) 1)%Z)
    eqn:Hcond.
  2:{ destruct (now <? 0)%Z; [|discriminate]. injection Hpub as Hpub. congruence. }
  destruct (bonds !! Z.to_nat now) as [granted|] eqn:Hgranted; [|discriminate].
  injection Hpub as Hid.
  pose proof Hcond as Hguard.
  apply andb_true_iff in Hcond as [Hpos _]. apply Z.gtb_lt in Hpos.
  assert (Hgranted' : bonds' !! Z.to_nat now
                      = Some (processSafetyMessage message granted)).
  { unfold bonds'. rewrite spinOnce_lookup, Hgranted. reflexivity. }
  assert (Hpass : check_bonds bonds' now = now).
  { pose proof (check_bonds_le bonds' now) as Hle.
    destruct (check_bonds_attained bonds' now) as [H | H]; [lia | exact H |].
    destruct H as (k & bond' & Hbond' & Hcase).
    destruct (spinOnce_message_lookup message bonds k bond' Hbond')
      as (bond & Hbond & ->).
    destruct (check_bonds_flagged bonds lsp k bond Hfits Hbond) as [Hs Hf].
    fold now in Hs, Hf.
    destruct (decide (k = Z.to_nat now)) as [->|Hother].
    - rewrite Hgranted in Hbond. injection Hbond as <-.
      destruct Hcase as [[_ H] | [Hfatal H]]; [lia|].
      unfold processSafetyMessage in Hfatal.
      rewrite <- Hid in Hfatal. unfold getId in Hfatal.
      rewrite String.eqb_refl in Hfatal. specialize (Hf Hfatal). lia.
    - assert (Hsame : processSafetyMessage message bond = bond).
      { unfold processSafetyMessage.
        rewrite Forall_lookup in Hsentinel.
        rewrite (Hsentinel k bond Hbond).
        destruct (String.eqb_spec message (bond_id_ bond)) as [Heq|_].
        - exfalso. apply Hother.
          apply (NoDup_lookup (map getId bonds) k (Z.to_nat now) message Hdistinct).
          + change (map getId bonds) with (getId <$> bonds).
            rewrite list_lookup_fmap, Hbond. simpl. now rewrite Heq.
          + change (map getId bonds) with (getId <$> bonds).
            rewrite list_lookup_fmap, Hgranted. simpl. now rewrite Hid.
        - destruct (String.eqb_spec message "FATAL"); [contradiction | reflexivity]. }
      rewrite Hsame in Hcase.
      destruct Hcase as [[Hflag H] | [Hflag H]];
        [specialize (Hs Hflag) | specialize (Hf Hflag)]; lia. }
  split; [exact Hpass|].
  unfold publish. rewrite Hlen, Hguard, Hgranted'. f_equal.
  rewrite <- Hid.
  apply (run_keeps_id [ProcessSafetyMessage (getId granted)] granted).
Qed.

Lemma own_grant_is_a_fixed_point_witness :
  check_bonds
    (spinOnce [SafetyMsg "B"]
       [SafetyClient.new "A"; processSafetyMessage "B" (SafetyClient.new "B");
        SafetyClient.new "C"])
    (check_bonds
       [SafetyClient.new "A"; processSafetyMessage "B" (SafetyClient.new "B");
        SafetyClient.new "C"] 2)
  = check_bonds
      [SafetyClient.new "A"; processSafetyMessage "B" (SafetyClient.new "B");
       SafetyClient.new "C"] 2.
Proof.
  apply (own_grant_is_a_fixed_point
           [SafetyClient.new "A"; processSafetyMessage "B" (SafetyClient.new "B");
            SafetyClient.new "C"] 2 "B").
  - vm_compute. discriminate.
  - simpl.
    repeat (apply NoDup_cons_2;
            [rewrite list_elem_of_In; simpl; intuition discriminate|]).
    apply NoDup_nil_2.
  - repeat constructor.
  - discriminate.
  - reflexivity.
Defined.

(** X15. One "FATAL" on the topic is fatal for the fleet.  When the sentinel
    reaches the links and the most senior link is not itself named like the
    sentinel, the next evaluation pass leaves lowest_safe_priority at -1,
    whatever it was, and "FATAL" is published. *)
Theorem fatal_broadcast_is_fatal
    (bonds : list SafetyClient.t) (senior : SafetyClient.t) (lsp : Z) :
  (Z.of_nat (length bonds) <= Int32.max_signed)%Z ->
  bonds !! 0%nat = Some senior ->
  bond_id_ senior <> fatal_message_ senior ->
  (-1 <= lsp)%Z ->
  check_bonds (spinOnce [SafetyMsg (fatal_message_ senior)] bonds) lsp = (-1)%Z
  /\ publish (spinOnce [SafetyMsg (fatal_message_ senior)] bonds)
       (check_bonds (spinOnce [SafetyMsg (fatal_message_ senior)] bonds) lsp)
     = Some "FATAL".
Proof.
  intros Hfits Hsenior Hname Hlsp.
  set (bonds' := spinOnce [SafetyMsg (fatal_message_ senior)] bonds).
  assert (Hpass : check_bonds bonds' lsp = (-1)%Z).
  { pose proof (check_bonds_ge bonds' lsp Hlsp) as Hge.
    destruct (check_bonds_flagged bonds' lsp 0
                (processSafetyMessage (fatal_message_ senior) senior))
      as [_ Hfatal].
    - unfold bonds'. now rewrite spinOnce_length.
    - unfold bonds'. rewrite spinOnce_lookup, Hsenior. reflexivity.
    - assert (isFatalActive
                (processSafetyMessage (fatal_message_ senior) senior) = true).
      { unfold processSafetyMessage.
        destruct (String.eqb_spec (fatal_message_ senior) (bond_id_ senior))
          as [Heq|_]; [congruence|].
        now rewrite String.eqb_refl. }
      specialize (Hfatal H). lia. }
  split; [exact Hpass|]. rewrite Hpass. reflexivity.
Qed.

Lemma fatal_broadcast_is_fatal_witness :
  check_bonds
    (spinOnce [SafetyMsg (fatal_message_ (SafetyClient.new "A"))]
       [SafetyClient.new "A"; SafetyClient.new "B"]) 1 = (-1)%Z.
Proof.
  apply (fatal_broadcast_is_fatal
           [SafetyClient.new "A"; SafetyClient.new "B"] (SafetyClient.new "A") 1).
  - vm_compute. discriminate.
  - reflexivity.
  - discriminate.
  - lia.
Defined.

(** ** Leaving the program *)

Lemma waitUntilSafe_all_ok (env : list tick) :
  forall others this,
    forallb ok env = true ->
    w_outcome (waitUntilSafe env others this) <> NoReturn
    /\ forallb ok (w_env (waitUntilSafe env others this)) = true.
Proof.
  induction env as [|now later IH]; intros others this Hok; simpl in *;
    [split; [discriminate | reflexivity]|].
  apply andb_true_iff in Hok as [Hnow Hlater]. rewrite Hnow.
  destruct (broken_ this); simpl;
    [split; [discriminate | now rewrite Hnow, Hlater]|].
  destruct (formed_ this); simpl;
    [split; [discriminate | now rewrite Hnow, Hlater]|].
  apply IH, Hlater.
Qed.

Lemma form_bonds_all_ok (bond_ids : list string) :
  forall env log bonds lsp,
    forallb ok env = true ->
    match form_bonds bond_ids env log bonds lsp with
    | Ready _ _ _ env' => forallb ok env' = true
    | Stalled _ how => how = Pending
    end.
Proof.
  induction bond_ids as [|bond_id rest IH]; intros env log bonds lsp Hok;
    simpl; [exact Hok|].
  unfold formBond.
  destruct (waitUntilSafe_all_ok env bonds (SafetyClient.new bond_id) Hok)
    as [Hreturn Hleft].
  destruct (w_outcome (waitUntilSafe env bonds (SafetyClient.new bond_id)))
    as [[|]| |]; [apply IH, Hleft | exact Hleft | contradiction | reflexivity].
Qed.

Lemma loop_all_ok (env : list tick) :
  forall bonds lsp,
    forallb ok env = true ->
    (-1 <= lsp < Int32.of_size (length bonds))%Z ->
    snd (loop env bonds lsp) = Pending
    /\ length (fst (loop env bonds lsp)) = S (length env).
Proof.
  induction env as [|now later IH]; intros bonds lsp Hok Hlsp;
    pose proof (check_bonds_in_range bonds lsp Hlsp) as Hnext;
    assert (Hrange : range_ok bonds (check_bonds bonds lsp) = true)
      by (apply range_ok_spec; lia);
    cbn [loop]; rewrite Hrange; [auto|].
  simpl in Hok. apply andb_true_iff in Hok as [Hnow Hlater]. rewrite Hnow.
  destruct (IH (spinOnce (queue now) bonds) (check_bonds bonds lsp) Hlater)
    as [Hexit Hcount]; [rewrite spinOnce_length; exact Hnext|].
  destruct (loop later (spinOnce (queue now) bonds) (check_bonds bonds lsp))
    as [cycles how]; simpl in *. auto.
Qed.

(** X16. [main] stops only on shutdown.  With a configured list that is not
    empty, as long as [ros::ok()] holds at every tick the program neither
    aborts nor returns: it is still running when the ticks end. *)
Theorem main_stops_only_on_shutdown
    (bond_ids : list string) (env : list tick) :
  (Z.of_nat (length bond_ids) <= Int32.max_signed)%Z ->
  bond_ids <> [] ->
  forallb ok env = true ->
  r_exit (main (Some bond_ids) env) = Pending.
Proof.
  intros Hfits Hne Hok.
  rewrite (main_run bond_ids env Hne).
  pose proof (form_bonds_all_ok bond_ids env [] []
                (Int32.sub (Int32.of_size (length bond_ids)) 1) Hok) as Hstart.
  destruct (form_bonds _ _ _ _ _) as [log bonds lsp env'|log how] eqn:Hform;
    simpl; [|exact Hstart].
  destruct (loop_entry bond_ids env log bonds lsp env' Hne Hfits Hform)
    as (_ & _ & Hlen & Hlsp & _).
  apply loop_all_ok; [exact Hstart | rewrite of_size_small; lia].
Qed.

Lemma main_stops_only_on_shutdown_witness :
  r_exit (main (Some ["A"; "B"; "C"]) scenario_ABC) = Pending.
Proof.
  apply (main_stops_only_on_shutdown ["A"; "B"; "C"] scenario_ABC).
  - vm_compute. discriminate.
  - discriminate.
  - reflexivity.
Defined.

(** X17. A shutdown is noticed only after a decision went out: a run that
    ends at the [break] of the main loop has been through at least one full
    cycle, and [ros::ok()] was false at some tick. *)
Theorem shutdown_comes_after_a_cycle
    (bond_ids : list string) (env : list tick) :
  (Z.of_nat (length bond_ids) <= Int32.max_signed)%Z ->
  r_exit (main (Some bond_ids) env) = Shutdown ->
  r_cycles (main (Some bond_ids) env) <> [] /\ forallb ok env = false.
Proof.
  intros Hfits Hexit.
  destruct (decide (bond_ids = [])) as [->|Hne]; [discriminate Hexit|].
  split.
  - rewrite (main_run bond_ids env Hne) in *.
    destruct (form_bonds _ _ _ _ _) as [log bonds lsp env'|log how] eqn:Hform;
      simpl in *.
    + destruct (loop_entry bond_ids env log bonds lsp env' Hne Hfits Hform)
        as (_ & _ & Hlen & Hlsp & _).
      destruct (loop_in_range env' bonds lsp)
        as (_ & (first & rest & -> & _) & _);
        [rewrite of_size_small; lia | discriminate].
    + apply form_bonds_stalled in Hform as [_ [-> | ->]]; discriminate Hexit.
  - destruct (forallb ok env) eqn:Hok; [|reflexivity].
    pose proof (form_bonds_all_ok bond_ids env [] []
                  (Int32.sub (Int32.of_size (length bond_ids)) 1) Hok) as Hstart.
    rewrite (main_run bond_ids env Hne) in Hexit.
    destruct (form_bonds _ _ _ _ _) as [log bonds lsp env'|log how] eqn:Hform;
      simpl in Hexit; [|congruence].
    destruct (loop_entry bond_ids env log bonds lsp env' Hne Hfits Hform)
      as (_ & _ & Hlen & Hlsp & _).
    destruct (loop_all_ok env' bonds lsp Hstart) as [Hpending _];
      [rewrite of_size_small; lia | congruence].
Qed.

Lemma shutdown_comes_after_a_cycle_witness :
  r_cycles (main (Some ["A"])
              [Tick true [BondFormed 0]; Tick true []; Tick false []]) <> [].
Proof.
  apply (shutdown_comes_after_a_cycle ["A"]
           [Tick true [BondFormed 0]; Tick true []; Tick false []]).
  - vm_compute. discriminate.
  - reflexivity.
Defined.

(** X18. A fleet of one node is never granted authority: with a single
    configured id, every cycle either leaves lowest_safe_priority at 0 and
    publishes nothing, or leaves it at -1 and publishes "FATAL". *)
Theorem single_node_is_silent_or_fatal
    (bond_id : string) (env : list tick) (c : cycle) :
  In c (r_cycles (main (Some [bond_id]) env)) ->
  (c_lsp c = 0%Z /\ c_published c = None)
  \/ (c_lsp c = (-1)%Z /\ c_published c = Some "FATAL").
Proof.
  intros Hin.
  assert (Hfits : (Z.of_nat (length [bond_id]) <= Int32.max_signed)%Z)
    by (vm_compute; discriminate).
  destruct (main_cycles_sound [bond_id] env Hfits) as [_ Hsound].
  rewrite Forall_forall in Hsound.
  destruct (Hsound c) as ([post Hpost] & Hlen & Hlsp & Hpub);
    [apply list_elem_of_In, Hin|].
  assert (Hone : length (c_bonds c) = 1%nat).
  { apply (f_equal (@length string)) in Hpost.
    rewrite length_app, length_map in Hpost. simpl in Hpost. lia. }
  rewrite Hone in *. unfold publish in Hpub. rewrite Hone in Hpub.
  assert (Hcase : c_lsp c = 0%Z \/ c_lsp c = (-1)%Z) by lia.
  destruct Hcase as [Hc | Hc]; rewrite Hc in Hpub; [left | right];
    (split; [exact Hc | exact Hpub]).
Qed.

Lemma single_node_is_silent_or_fatal_witness :
  exists c,
    hd_error (r_cycles (main (Some ["A"]) [Tick true [BondFormed 0];
                                             Tick true [SafetyMsg "A"];
                                             Tick true []])) = Some c
    /\ ((c_lsp c = 0%Z /\ c_published c = None)
        \/ (c_lsp c = (-1)%Z /\ c_published c = Some "FATAL")).
Proof.
  eexists. split; [vm_compute; reflexivity|].
  eapply (single_node_is_silent_or_fatal "A"
            [Tick true [BondFormed 0]; Tick true [SafetyMsg "A"]; Tick true []]).
  vm_compute. left. reflexivity.
Defined.
